(** * The video worker: pipeline coordinator and status recorder

    A shallow embedding of [video-worker/video_processor.py].  The worker
    is a Python class holding one mutable dictionary ([self.config],
    decoded from [config.json]) and driving a fixed chain of stages, each
    of which shells out to [ffmpeg]/[ffprobe] and reports through
    [update_status].

    Everything outside the interpreter (the file system, the external
    programs, the moment the process may be killed) is collected in a
    [World] record that the model consults; the worker itself is written
    in a small state-and-exception monad whose state holds the in-memory
    dictionary, the contents of [config.json] on disk and the history of
    observable events. *)

From Stdlib Require Import ZArith List Ascii String SpecFloat.
From stdpp Require Import gmap strings pretty list.

Open Scope Z_scope.

(** ** Python values *)

Set Warnings "-register-all".

(** What [json.load] produces.  Integers and floats are kept apart as
    Python does; a nested object is an association list in document
    order, the top-level object is a finite map (see [State]). *)
Inductive Json :=
| JNull
| JBool (b : bool)
| JInt (z : Z)
| JFloat (f : spec_float)
| JStr (s : string)
| JArr (items : list Json)
| JObj (fields : list (string * Json)).

(** The JSON documents that are not objects. *)
Inductive Foreign :=
| FNull
| FBool (b : bool)
| FInt (z : Z)
| FFloat (f : spec_float)
| FStr (s : string)
| FArr (items : list Json).

Definition json_of (doc : Foreign) : Json :=
  match doc with
  | FNull => JNull
  | FBool b => JBool b
  | FInt z => JInt z
  | FFloat f => JFloat f
  | FStr s => JStr s
  | FArr items => JArr items
  end.

(** The exception classes the worker can meet.  Only
    [CalledProcessError] is ever named in an [except] clause; the others
    are caught by [except Exception] alone. *)
Inductive ExnClass :=
| CalledProcessError | KeyError | TypeError | ValueError | IndexError
| ZeroDivisionError | OverflowError | OSError.

Record Exn := mkExn { exn_class : ExnClass; exn_str : string }.

(** Outcome of running a piece of Python: a value, a raised exception,
    or the death of the whole process (which no [except] clause sees). *)
Inductive Res (A : Type) :=
| Ret (a : A)
| Raise (e : Exn)
| Killed.
Arguments Ret {A} a.
Arguments Raise {A} e.
Arguments Killed {A}.

Module Py.

Definition nl : string := String (Ascii.ascii_of_nat 10) "".

(** Truth value of an object, as tested by [if x:] and [not x]. *)
Definition truthy (v : Json) : bool :=
  match v with
  | JNull => false
  | JBool b => b
  | JInt z => negb (z =? 0)
  | JFloat f =>
      match f with S754_zero _ => false | _ => true end
  | JStr s => match s with "" => false | _ => true end
  | JArr l => match l with [] => false | _ => true end
  | JObj l => match l with [] => false | _ => true end
  end.

Definition str_truthy (s : string) : bool :=
  match s with "" => false | _ => true end.

Fixpoint assoc (k : string) (l : list (string * Json)) : option Json :=
  match l with
  | [] => None
  | (k', v) :: rest => if String.eqb k k' then Some v else assoc k rest
  end.

Definition type_name (v : Json) : string :=
  match v with
  | JNull => "NoneType" | JBool _ => "bool" | JInt _ => "int"
  | JFloat _ => "float" | JStr _ => "str" | JArr _ => "list"
  | JObj _ => "dict"
  end.

(** [v[k]] for a string key [k] (message texts as in CPython 3.11). *)
Definition subscript (v : Json) (k : string) : Res Json :=
  match v with
  | JObj l =>
      match assoc k l with
      | Some x => Ret x
      | None => Raise (mkExn KeyError ("'" +:+ k +:+ "'"))
      end
  | JStr _ =>
      Raise (mkExn TypeError "string indices must be integers, not 'str'")
  | JArr _ =>
      Raise (mkExn TypeError
               "list indices must be integers or slices, not str")
  | _ =>
      Raise (mkExn TypeError
               ("'" +:+ type_name v +:+ "' object is not subscriptable"))
  end.

(** The [TypeError] of [v[k]] and the one of [v[k] = x], for a string
    key [k] and a [v] that is not a dict. *)
Definition subscript_error (v : Json) : Exn :=
  match v with
  | JStr _ => mkExn TypeError "string indices must be integers, not 'str'"
  | JArr _ =>
      mkExn TypeError "list indices must be integers or slices, not str"
  | _ =>
      mkExn TypeError
        ("'" +:+ type_name v +:+ "' object is not subscriptable")
  end.

Definition assignment_error (v : Json) : Exn :=
  match v with
  | JArr _ =>
      mkExn TypeError "list indices must be integers or slices, not str"
  | _ =>
      mkExn TypeError
        ("'" +:+ type_name v +:+ "' object does not support item assignment")
  end.

(** [len(v)]; a character of a string is one [ascii] here. *)
Definition len (v : Json) : Res nat :=
  match v with
  | JArr l => Ret (length l)
  | JObj l => Ret (length l)
  | JStr s => Ret (String.length s)
  | _ =>
      Raise (mkExn TypeError
               ("object of type '" +:+ type_name v +:+ "' has no len()"))
  end.

Fixpoint chars (s : string) : list Json :=
  match s with
  | "" => []
  | String c r => JStr (String c "") :: chars r
  end.

(** The items a [for] loop over [v] visits. *)
Definition iter (v : Json) : Res (list Json) :=
  match v with
  | JArr l => Ret l
  | JObj l => Ret (map (fun kv => JStr (fst kv)) l)
  | JStr s => Ret (chars s)
  | _ =>
      Raise (mkExn TypeError
               ("'" +:+ type_name v +:+ "' object is not iterable"))
  end.

(** [str(v)], as an f-string renders [v]; [render] stands for the
    renderings the model leaves open (floats, lists, dicts). *)
Definition format (render : Json -> string) (v : Json) : string :=
  match v with
  | JStr s => s
  | JInt z => pretty z
  | JBool true => "True"
  | JBool false => "False"
  | JNull => "None"
  | _ => render v
  end.

Definition truthy_opt (o : option Json) : bool :=
  match o with Some v => truthy v | None => false end.

(** Right operand of [Path / v]: only a string is accepted. *)
Definition path_operand (v : Json) : Res string :=
  match v with
  | JStr s => Ret s
  | _ =>
      Raise (mkExn TypeError
               ("unsupported operand type(s) for /: 'PosixPath' and '"
                +:+ type_name v +:+ "'"))
  end.

(** *** Paths ([pathlib] and [os.path] on POSIX)

    A [Path] is kept as the string [str()] gives for it. *)

(** A component of a path is kept unless it is empty or a single dot. *)
Definition keep (part : string) : list string :=
  match part with
  | "" => []
  | String c "" => if Ascii.eqb c "."%char then [] else [part]
  | _ => [part]
  end.

(** The components of [p] after the component [acc] being read. *)
Fixpoint parts_from (acc p : string) : list string :=
  match p with
  | "" => keep acc
  | String c r =>
      if Ascii.eqb c "/"%char then keep acc ++ parts_from "" r
      else parts_from (acc +:+ String c "") r
  end.

Definition parts (p : string) : list string := parts_from "" p.

(** The root of a path: one leading slash, or exactly two. *)
Definition root (p : string) : string :=
  match p with
  | String a (String b (String c _)) =>
      if Ascii.eqb a "/"%char then
        if Ascii.eqb b "/"%char then
          if Ascii.eqb c "/"%char then "/" else "//"
        else "/"
      else ""
  | String a (String b "") =>
      if Ascii.eqb a "/"%char then
        if Ascii.eqb b "/"%char then "//" else "/"
      else ""
  | String a "" => if Ascii.eqb a "/"%char then "/" else ""
  | "" => ""
  end.

Fixpoint join_parts (l : list string) : string :=
  match l with
  | [] => ""
  | x :: rest =>
      match rest with
      | [] => x
      | _ => x +:+ "/" +:+ join_parts rest
      end
  end.

(** [str(Path(p))]: doubled separators, single dots and a trailing
    separator are dropped; the empty path is [.]. *)
Definition path_str (p : string) : string :=
  match root p, parts p with
  | "", [] => "."
  | r, l => r +:+ join_parts l
  end.

Fixpoint ends_with_slash (p : string) : bool :=
  match p with
  | "" => false
  | String c "" => Ascii.eqb c "/"%char
  | String _ r => ends_with_slash r
  end.

(** [os.path.join(a, b)]: an absolute [b] replaces [a]. *)
Definition os_path_join (a b : string) : string :=
  match b with
  | String c _ =>
      if Ascii.eqb c "/"%char then b
      else match a with
           | "" => b
           | _ => if ends_with_slash a then a +:+ b else a +:+ "/" +:+ b
           end
  | "" =>
      match a with
      | "" => ""
      | _ => if ends_with_slash a then a else a +:+ "/"
      end
  end.

(** [str(Path(d) / f)]. *)
Definition path_join (d f : string) : string := path_str (os_path_join d f).

Fixpoint basename_from (acc p : string) : string :=
  match p with
  | "" => acc
  | String c r =>
      if Ascii.eqb c "/"%char then basename_from "" r
      else basename_from (acc +:+ String c "") r
  end.

(** [os.path.basename]. *)
Definition basename (p : string) : string := basename_from "" p.

Definition is_ws (c : ascii) : bool :=
  let n := Ascii.nat_of_ascii c in
  ((9 <=? n) && (n <=? 13) || (n =? 32))%nat.

Fixpoint lstrip (s : string) : string :=
  match s with
  | "" => ""
  | String c r => if is_ws c then lstrip r else s
  end.

(** [s.strip()] on ASCII white space. *)
Definition strip (s : string) : string :=
  String.rev (lstrip (String.rev (lstrip s))).

(** The format specification [{i:02d}]. *)
Definition pad2 (i : nat) : string :=
  if (i <? 10)%nat then "0" +:+ pretty i else pretty i.

(** *** Floats (IEEE 754 binary64) *)

Definition prec : Z := 53.
Definition emax : Z := 1024.

Definition float_of_int (z : Z) : spec_float :=
  binary_normalize prec emax z 0 false.

(** [a / b] on integers.  Both operands are list lengths and indices
    here, far below 2^53, so converting them first is exact. *)
Definition truediv (a b : Z) : Res spec_float :=
  if b =? 0 then Raise (mkExn ZeroDivisionError "division by zero")
  else Ret (SFdiv prec emax (float_of_int a) (float_of_int b)).

Definition fmul (x y : spec_float) : spec_float := SFmul prec emax x y.
Definition fsub (x y : spec_float) : spec_float := SFsub prec emax x y.

(** [int(x)]: truncation toward zero. *)
Definition int (x : spec_float) : Res Z :=
  match x with
  | S754_zero _ => Ret 0
  | S754_finite sgn m e =>
      let a := if 0 <=? e then Z.shiftl (Z.pos m) e
               else Z.shiftr (Z.pos m) (- e) in
      Ret (if sgn then - a else a)
  | S754_infinity _ =>
      Raise (mkExn OverflowError
               "cannot convert float infinity to integer")
  | S754_nan =>
      Raise (mkExn ValueError "cannot convert float NaN to integer")
  end.

(** The literal [1.5]. *)
Definition one_and_a_half : spec_float :=
  binary_normalize prec emax 3 (-1) false.

End Py.

(** ** The world outside the interpreter *)

(** What [subprocess.run] can come back with: exit status 0, another
    exit status, or a failure to start the program at all. *)
Inductive RunOutcome :=
| Completed (stdout : string)
| NonZero (returncode : Z) (stdout : string)
| LaunchError (text : string).

(** What is observable of a run, oldest first.  [EvStatus] is the
    in-memory assignment of the status fields (an empty message meaning
    that the message is left as it was); the others are effects on the
    outside. *)
Inductive Event :=
| EvPrint (line : string)
| EvStatus (status : string) (progress : Z) (message : string)
| EvOpen (path : string)
| EvDump (record : gmap string Json)
| EvExec (argv : list string)
| EvMkdir (path : string)
| EvWrite (path : string) (text : string).

(** The answers of the environment.  Answers that may change while the
    worker runs take the history so far as an argument; [w_exists] and
    [w_stat] do not, the files asked about being input assets that no
    step of the worker creates or removes.  [w_exists] is the answer of
    [os.path.exists]; a [Some text] from [w_stat] is the [OSError] with
    which [os.stat] fails on a path for another reason than the file
    not being there (a name too long, a directory that may not be
    searched), which [Path.exists] lets through.  A [Some text] from
    [w_open], [w_dump], [w_write] or [w_mkdir] is an [OSError] with
    that text.  [w_kill] tells whether the process is dead by the time
    of its next step.  Standard output is taken to accept every line.
    The [py_] fields are renderings and parsers of the interpreter
    which the model leaves open: [str()] of a float, list or dict found
    in the record, [str()] of a float, [float()] of a string, and the
    text of a [CalledProcessError]. *)
Record World := {
  w_exists : string -> bool;
  w_stat : string -> option string;
  w_run : list Event -> list string -> RunOutcome;
  w_open : list Event -> string -> option string;
  w_dump : list Event -> option string;
  w_write : list Event -> string -> option string;
  w_mkdir : list Event -> string -> option string;
  w_kill : list Event -> bool;
  py_str : Json -> string;
  py_str_float : spec_float -> string;
  py_float : string -> option spec_float;
  py_str_cpe : list string -> Z -> string
}.

(** Contents of [config.json]: no file, a JSON object, a JSON
    document that is not an object (a list, a string, a number,
    [null]), or something that does not parse (an empty or
    half-written file). *)
Inductive File :=
| Missing
| Holds (record : gmap string Json)
| Other (doc : Foreign)
| Torn.

Record State := mkState {
  config : gmap string Json;
  disk : File;
  log : list Event
}.

Definition emit (e : Event) (s : State) : State :=
  mkState (config s) (disk s) (log s ++ [e]).

Definition set_disk (f : File) (s : State) : State :=
  mkState (config s) f (log s).

Definition set_config (c : gmap string Json) (s : State) : State :=
  mkState c (disk s) (log s).

(** ** The monad *)

Definition M (A : Type) : Type := State -> Res A * State.

Definition ret {A} (a : A) : M A := fun s => (Ret a, s).

Definition bind {A B} (m : M A) (f : A -> M B) : M B :=
  fun s =>
    match m s with
    | (Ret a, s') => f a s'
    | (Raise e, s') => (Raise e, s')
    | (Killed, s') => (Killed, s')
    end.

Definition raise {A} (c : ExnClass) (text : string) : M A :=
  fun s => (Raise (mkExn c text), s).

Definition lift {A} (r : Res A) : M A := fun s => (r, s).

(** [try: body / except <classes> as e: handler e]. *)
Definition try_except {A} (body : M A) (catches : ExnClass -> bool)
    (handler : Exn -> M A) : M A :=
  fun s =>
    match body s with
    | (Raise e, s') =>
        if catches (exn_class e) then handler e s' else (Raise e, s')
    | other => other
    end.

Definition only_called_process_error (c : ExnClass) : bool :=
  match c with CalledProcessError => true | _ => false end.

Definition any_exception (c : ExnClass) : bool := true.

Declare Scope py_scope.
Delimit Scope py_scope with py.
Notation "x <- m ;; k" := (bind m (fun x => k))
  (at level 100, m at next level, right associativity) : py_scope.
Notation "m ;; k" := (bind m (fun _ => k))
  (at level 100, right associativity) : py_scope.
Open Scope py_scope.

(** ** What a run lets one observe *)

(** A status record as [update_status] is given it. *)
Record Update := mkUpdate {
  u_status : string;
  u_progress : Z;
  u_message : string
}.

Definition update_of (e : Event) : option Update :=
  match e with
  | EvStatus status progress message => Some (mkUpdate status progress message)
  | _ => None
  end.

Definition exec_of (e : Event) : option (list string) :=
  match e with EvExec argv => Some argv | _ => None end.

Definition print_of (e : Event) : option string :=
  match e with EvPrint line => Some line | _ => None end.

(** The status updates, the commands run and the lines printed. *)
Definition updates (l : list Event) : list Update := omap update_of l.
Definition execs (l : list Event) : list (list string) := omap exec_of l.
Definition prints (l : list Event) : list string := omap print_of l.

(** [m] changes the history only by appending events that satisfy [phi]. *)
Definition emits_only {A} (phi : Event -> Prop) (m : M A) : Prop :=
  forall s, exists evs, log (m s).2 = log s ++ evs /\ Forall phi evs.

(** [m] leaves the in-memory record alone. *)
Definition keeps_config {A} (m : M A) : Prop :=
  forall s, config (m s).2 = config s.

Definition silent (e : Event) : Prop := update_of e = None.
Definition not_exec (e : Event) : Prop := exec_of e = None.


(** Neither a status update nor a command. *)
Definition harmless (e : Event) : Prop := silent e /\ not_exec e.

(** [m] neither updates the status nor touches the record. *)
Definition quiet {A} (m : M A) : Prop :=
  emits_only silent m /\ keeps_config m.

(** Assertions speak of the record in memory and of the status updates
    made so far. *)
Definition Assertion : Type := gmap string Json -> list Update -> Prop.

(** [hoare P m Q E]: from a state satisfying [P], [m] ends in a state
    satisfying [Q a] when it returns [a], and [E] when it raises or the
    process is killed. *)
Definition hoare {A} (P : Assertion) (m : M A) (Q : A -> Assertion)
    (E : Assertion) : Prop :=
  forall s, P (config s) (updates (log s)) ->
    match m s with
    | (Ret a, s') => Q a (config s') (updates (log s'))
    | (_, s') => E (config s') (updates (log s'))
    end.

(** *** The invariant of the status record *)

(** Of two successive updates that are both [processing], the later
    one does not report less progress. *)
Fixpoint monotone_processing (tr : list Update) : Prop :=
  match tr with
  | u :: rest =>
      match rest with
      | v :: _ =>
          (u_status u = "processing" -> u_status v = "processing" ->
           u_progress u <= u_progress v)
      | [] => True
      end /\ monotone_processing rest
  | [] => True
  end.

Definition error_resets (u : Update) : Prop :=
  u_status u = "error" -> u_progress u = 0.

Definition at_most (p : Z) (u : Update) : Prop :=
  u_status u = "processing" -> u_progress u <= p.

Definition no_audio_message : string := "No audio tracks available".

Definition audio_available (u : Update) : Prop :=
  u_message u <> no_audio_message.

(** The updates [tr] made so far are in order, reset progress on error,
    never report the absence of audio tracks, and have not gone beyond
    [p] while processing. *)
Definition trace_inv (p : Z) (tr : list Update) : Prop :=
  monotone_processing tr /\ Forall error_resets tr /\
  Forall audio_available tr /\ Forall (at_most p) tr.

(** The same of the updates made since [tr0]. *)
Definition since (tr0 : list Update) (p : Z) : Assertion :=
  fun _ full => exists tr, full = tr0 ++ tr /\ trace_inv p tr.

(** The record lists thirty images. *)
Definition thirty_images (c : gmap string Json) : Prop :=
  exists v, c !! "images" = Some v /\ Py.len v = Ret 30%nat.

(** The line [update_status] prints. *)
Definition status_line (status : string) (progress : Z) (message : string)
  : string :=
  "Status: " +:+ status +:+ " (" +:+ pretty progress +:+ "%) - " +:+ message.

(** The record after [update_status status progress message]. *)
Definition updated (status : string) (progress : Z) (message : string)
    (c : gmap string Json) : gmap string Json :=
  let c := <["progress" := JInt progress]> (<["status" := JStr status]> c) in
  if Py.str_truthy message then <["message" := JStr message]> c else c.

(** ** Sample projects and worlds *)

Module Demo.

Definition image (i : nat) : Json :=
  JObj [("filename", JStr ("photo" +:+ pretty i +:+ ".png"))].

(** A record with [n] images and a narration. *)
Definition record (n : nat) : gmap string Json :=
  <["id" := JStr "demo"]>
    (<["status" := JStr "pending"]>
       (<["progress" := JInt 0]>
          (<["message" := JStr "En cola"]>
             (<["images" := JArr (map image (seq 0 n))]>
                (<["audio" :=
                     JObj [("narration",
                            JObj [("filename", JStr "voice.mp3")])]]> ∅))))).

(** The same with a soundtrack and a filter selected. *)
Definition record_with_extras : gmap string Json :=
  <["selectedSoundtrack" := JStr "lofi"]>
    (<["selectedFilter" := JStr "rain"]> (record 30)).

(** A record that lacks its [id]. *)
Definition record_without_id : gmap string Json := delete "id" (record 30).

(** The state in which [main] starts, and the one [process] starts in
    once the record is loaded. *)
Definition boot (file : File) : State := mkState ∅ file [].
Definition loaded (c : gmap string Json) : State := mkState c (Holds c) [].

(** Every file exists, every program succeeds, [ffprobe] and [date]
    print a number, and nothing kills the process. *)
Definition calm : World := {|
  w_exists := fun _ => true;
  w_stat := fun _ => None;
  w_run := fun _ _ => Completed "60.0";
  w_open := fun _ _ => None;
  w_dump := fun _ => None;
  w_write := fun _ _ => None;
  w_mkdir := fun _ _ => None;
  w_kill := fun _ => false;
  py_str := fun _ => "?";
  py_str_float := fun _ => "58.5";
  py_float :=
    fun text =>
      if String.eqb text "60.0" then Some (Py.float_of_int 60) else None;
  py_str_cpe :=
    fun _ rc =>
      "Command returned non-zero exit status " +:+ pretty rc +:+ "."
|}.

Definition with_exists (f : string -> bool) (w : World) : World := {|
  w_exists := f; w_stat := w_stat w;
  w_run := w_run w; w_open := w_open w; w_dump := w_dump w;
  w_write := w_write w; w_mkdir := w_mkdir w; w_kill := w_kill w;
  py_str := py_str w; py_str_float := py_str_float w;
  py_float := py_float w; py_str_cpe := py_str_cpe w
|}.

Definition with_run (f : list Event -> list string -> RunOutcome)
    (w : World) : World := {|
  w_exists := w_exists w; w_stat := w_stat w;
  w_run := f; w_open := w_open w; w_dump := w_dump w;
  w_write := w_write w; w_mkdir := w_mkdir w; w_kill := w_kill w;
  py_str := py_str w; py_str_float := py_str_float w;
  py_float := py_float w; py_str_cpe := py_str_cpe w
|}.

Definition with_kill (f : list Event -> bool) (w : World) : World := {|
  w_exists := w_exists w; w_stat := w_stat w;
  w_run := w_run w; w_open := w_open w; w_dump := w_dump w;
  w_write := w_write w; w_mkdir := w_mkdir w; w_kill := f;
  py_str := py_str w; py_str_float := py_str_float w;
  py_float := py_float w; py_str_cpe := py_str_cpe w
|}.

Definition head_is (name : string) (argv : list string) : bool :=
  match argv with
  | program :: _ => String.eqb program name
  | [] => false
  end.

(** [ffprobe] cannot tell the duration and prints [N/A]. *)
Definition unknown_duration : World :=
  with_run
    (fun _ argv =>
       if head_is "ffprobe" argv then Completed "N/A" else Completed "60.0")
    calm.

(** The sound and filter libraries are empty. *)
Definition empty_libraries : World :=
  with_exists (fun p => negb (String.prefix "public/" p)) calm.

(** The conversion of the soundtrack fails. *)
Definition soundtrack_fails : World :=
  with_run
    (fun _ argv =>
       if existsb (String.eqb "volume=0.3") argv
       then NonZero 1 "" else Completed "60.0")
    calm.

(** The conversion of the narration fails. *)
Definition narration_fails : World :=
  with_run
    (fun _ argv =>
       if existsb (String.eqb "/proj/output/narration.wav") argv
       then NonZero 1 "" else Completed "60.0")
    calm.

(** [ffprobe] is not installed. *)
Definition ffprobe_missing : World :=
  with_run
    (fun _ argv =>
       if head_is "ffprobe" argv
       then LaunchError "[Errno 2] No such file or directory: 'ffprobe'"
       else Completed "60.0")
    calm.

(** The process is killed once [config.json] has been opened for
    writing. *)
Definition killed_after_open : World :=
  with_kill
    (fun l =>
       match last l with
       | Some (EvOpen _) => true
       | _ => false
       end)
    calm.

(** The conversion of the third image fails. *)
Definition third_image_fails : World :=
  with_run
    (fun _ argv =>
       if existsb (String.eqb "/proj/output/processed_images/img_02.jpg") argv
       then NonZero 1 "" else Completed "60.0")
    calm.

End Demo.

(** ** The worker *)

Section Worker.

Variable w : World.

(** [args.project_dir], as given on the command line. *)
Variable project_dir : string.

(** The attributes set in [__init__]. *)
Definition config_path : string := Py.path_join project_dir "config.json".
Definition output_dir : string := Py.path_join project_dir "output".
Definition images_dir : string := Py.path_join project_dir "images".
Definition audio_dir : string := Py.path_join project_dir "audio".

Definition fmt (v : Json) : string := Py.format (py_str w) v.

(** *** Primitive steps *)

(** Every step that touches the outside is a point at which the
    process may already have been killed. *)
Definition effect {A} (k : M A) : M A :=
  fun s => if w_kill w (log s) then (Killed, s) else k s.

Definition print (line : string) : M unit :=
  effect (fun s => (Ret tt, emit (EvPrint line) s)).

(** [os.path.exists(p)], which answers [False] when it cannot tell,
    and [Path(p).exists()], which raises then. *)
Definition os_path_exists (p : string) : M bool :=
  effect (fun s => (Ret (w_exists w p), s)).

Definition path_exists (p : string) : M bool :=
  effect (fun s =>
    match w_stat w p with
    | Some text => (Raise (mkExn OSError text), s)
    | None => (Ret (w_exists w p), s)
    end).

(** [subprocess.run(argv, check=check, capture_output=True)], giving
    the captured standard output. *)
Definition subprocess_run (argv : list string) (check : bool) : M string :=
  effect (fun s =>
    let s' := emit (EvExec argv) s in
    match w_run w (log s) argv with
    | Completed out => (Ret out, s')
    | NonZero rc out =>
        if check
        then (Raise (mkExn CalledProcessError (py_str_cpe w argv rc)), s')
        else (Ret out, s')
    | LaunchError text => (Raise (mkExn OSError text), s')
    end).

(** [open(path, "w")]: on success the file is empty from here on. *)
Definition open_config_w : M unit :=
  effect (fun s =>
    match w_open w (log s) config_path with
    | Some text => (Raise (mkExn OSError text), s)
    | None => (Ret tt, emit (EvOpen config_path) (set_disk Torn s))
    end).

(** [json.dump(self.config, f, ...)] and the closing of [f]. *)
Definition json_dump_config : M unit :=
  effect (fun s =>
    match w_dump w (log s) with
    | Some text => (Raise (mkExn OSError text), s)
    | None =>
        (Ret tt, emit (EvDump (config s)) (set_disk (Holds (config s)) s))
    end).

(** Opening another file for writing, and writing a text to it. *)
Definition open_w (path : string) : M unit :=
  effect (fun s =>
    match w_open w (log s) path with
    | Some text => (Raise (mkExn OSError text), s)
    | None => (Ret tt, emit (EvOpen path) s)
    end).

Definition write_text (path text : string) : M unit :=
  effect (fun s =>
    match w_write w (log s) path with
    | Some text' => (Raise (mkExn OSError text'), s)
    | None => (Ret tt, emit (EvWrite path text) s)
    end).

(** [path.mkdir(exist_ok=True)]. *)
Definition mkdir (path : string) : M unit :=
  effect (fun s =>
    match w_mkdir w (log s) path with
    | Some text => (Raise (mkExn OSError text), s)
    | None => (Ret tt, emit (EvMkdir path) s)
    end).

(** [self.config[k] = v], [self.config[k]] and [self.config.get(k)]. *)
Definition set_item (k : string) (v : Json) : M unit :=
  fun s => (Ret tt, set_config (<[k := v]> (config s)) s).

Definition get_item (k : string) : M Json :=
  fun s =>
    match config s !! k with
    | Some v => (Ret v, s)
    | None => (Raise (mkExn KeyError ("'" +:+ k +:+ "'")), s)
    end.

Definition config_get (k : string) : M (option Json) :=
  fun s => (Ret (config s !! k), s).

(** The assignment of the status fields enters the history. *)
Definition note_status (status : string) (progress : Z) (message : string)
  : M unit :=
  fun s => (Ret tt, emit (EvStatus status progress message) s).

(** *** [update_status] *)

Definition update_status (status : string) (progress : Z)
    (message : string) : M unit :=
  set_item "status" (JStr status) ;;
  set_item "progress" (JInt progress) ;;
  (if Py.str_truthy message
   then set_item "message" (JStr message) else ret tt) ;;
  note_status status progress message ;;
  open_config_w ;;
  json_dump_config ;;
  print ("Status: " +:+ status +:+ " (" +:+ pretty progress +:+ "%) - "
         +:+ message).

(** *** [validate_files] *)

(** The loop over the images; [false] is its early [return False]. *)
Fixpoint validate_images (imgs : list Json) : M bool :=
  match imgs with
  | [] => ret true
  | img_config :: rest =>
      filename <- lift (Py.subscript img_config "filename") ;;
      operand <- lift (Py.path_operand filename) ;;
      present <- path_exists (Py.path_join images_dir operand) ;;
      if negb present then
        filename' <- lift (Py.subscript img_config "filename") ;;
        update_status "error" 0
          ("Imagen no encontrada: " +:+ fmt filename') ;;
        ret false
      else validate_images rest
  end.

(** [self.config["audio"]["narration"]["filename"]]. *)
Definition narration_filename : M Json :=
  audio <- get_item "audio" ;;
  narration <- lift (Py.subscript audio "narration") ;;
  lift (Py.subscript narration "filename").

Definition validate_files : M bool :=
  print "🔍 Validating files..." ;;
  images <- get_item "images" ;;
  n <- lift (Py.len images) ;;
  if negb (n =? 30)%nat then
    images' <- get_item "images" ;;
    n' <- lift (Py.len images') ;;
    update_status "error" 0
      ("Se requieren 30 imágenes, encontradas: " +:+ pretty n') ;;
    ret false
  else
    images <- get_item "images" ;;
    imgs <- lift (Py.iter images) ;;
    all_present <- validate_images imgs ;;
    if negb all_present then ret false
    else
      filename <- narration_filename ;;
      operand <- lift (Py.path_operand filename) ;;
      present <- path_exists (Py.path_join audio_dir operand) ;;
      if negb present then
        filename' <- narration_filename ;;
        update_status "error" 0
          ("Audio de narración no encontrado: " +:+ fmt filename') ;;
        ret false
      else
        update_status "processing" 10 "Archivos validados correctamente" ;;
        ret true.

(** *** [prepare_images] *)

Definition image_cmd (input_path output_path : string) : list string :=
  ["ffmpeg"; "-y"; "-i"; input_path; "-vf";
   "scale=1920:1080:force_original_aspect_ratio=increase,crop=1920:1080";
   "-q:v"; "2"; output_path].

(** [10 + int((i + 1) / len(self.config["images"]) * 20)]. *)
Definition image_progress (i : nat) : M Z :=
  images <- get_item "images" ;;
  n <- lift (Py.len images) ;;
  q <- lift (Py.truediv (Z.of_nat i + 1) (Z.of_nat n)) ;;
  t <- lift (Py.int (Py.fmul q (Py.float_of_int 20))) ;;
  ret (10 + t).

Definition image_output (processed_dir : string) (i : nat) : string :=
  Py.path_join processed_dir ("img_" +:+ Py.pad2 i +:+ ".jpg").

(** The loop over [enumerate(self.config["images"])], from index [i]
    on; [image_paths] is the list built so far. *)
Fixpoint prepare_images_loop (processed_dir : string) (i : nat)
    (items : list Json) (image_paths : list string) : M (list string) :=
  match items with
  | [] => ret image_paths
  | img_config :: rest =>
      filename <- lift (Py.subscript img_config "filename") ;;
      operand <- lift (Py.path_operand filename) ;;
      let input_path := Py.path_join images_dir operand in
      let output_path := image_output processed_dir i in
      r <- try_except
             (subprocess_run (image_cmd input_path output_path) true ;;
              let image_paths := image_paths ++ [output_path] in
              progress <- image_progress i ;;
              update_status "processing" progress
                ("Procesando imagen " +:+ pretty (i + 1)%nat +:+ "/30") ;;
              ret (Some image_paths))
             only_called_process_error
             (fun e =>
                update_status "error" 0
                  ("Error procesando imagen " +:+ pretty (i + 1)%nat
                   +:+ ": " +:+ exn_str e) ;;
                ret None) ;;
      match r with
      | None => ret []
      | Some image_paths =>
          prepare_images_loop processed_dir (S i) rest image_paths
      end
  end.

Definition prepare_images : M (list string) :=
  print "🖼️ Preparing images..." ;;
  let processed_dir := Py.path_join output_dir "processed_images" in
  mkdir processed_dir ;;
  images <- get_item "images" ;;
  items <- lift (Py.iter images) ;;
  prepare_images_loop processed_dir 0 items [].

(** *** [prepare_audio] *)

Definition pcm_cmd (input output : string) : list string :=
  ["ffmpeg"; "-y"; "-i"; input; "-acodec"; "pcm_s16le"; "-ar"; "44100";
   "-ac"; "2"; output].

Definition soundtrack_cmd (input output : string) : list string :=
  ["ffmpeg"; "-y"; "-i"; input; "-acodec"; "pcm_s16le"; "-ar"; "44100";
   "-ac"; "2"; "-af"; "volume=0.3"; output].

Definition prepare_audio : M (gmap string string) :=
  print "🎵 Preparing audio..." ;;
  let audio_files : gmap string string := ∅ in
  filename <- narration_filename ;;
  operand <- lift (Py.path_operand filename) ;;
  let narration_input := Py.path_join audio_dir operand in
  let narration_output := Py.path_join output_dir "narration.wav" in
  r <- try_except
         (subprocess_run (pcm_cmd narration_input narration_output) true ;;
          let audio_files := <["narration" := narration_output]> audio_files in
          update_status "processing" 35 "Audio de narración procesado" ;;
          ret (Some audio_files))
         only_called_process_error
         (fun e =>
            update_status "error" 0
              ("Error procesando audio: " +:+ exn_str e) ;;
            ret None) ;;
  match r with
  | None => ret ∅
  | Some audio_files =>
      selected <- config_get "selectedSoundtrack" ;;
      if Py.truthy_opt selected then
        selected' <- get_item "selectedSoundtrack" ;;
        let soundtrack_path :=
          Py.path_str ("public/sounds/" +:+ fmt selected' +:+ ".mp3") in
        present <- path_exists soundtrack_path ;;
        if present then
          let soundtrack_output := Py.path_join output_dir "soundtrack.wav" in
          try_except
            (subprocess_run
               (soundtrack_cmd soundtrack_path soundtrack_output) true ;;
             let audio_files :=
               <["soundtrack" := soundtrack_output]> audio_files in
             update_status "processing" 40 "Soundtrack procesado" ;;
             ret audio_files)
            only_called_process_error
            (fun e =>
               print ("Warning: Error processing soundtrack: "
                      +:+ exn_str e) ;;
               ret audio_files)
        else ret audio_files
      else ret audio_files
  end.

(** *** [create_video_timeline] *)

Definition timeline_cmd (filelist_path images_video : string)
  : list string :=
  ["ffmpeg"; "-y"; "-f"; "concat"; "-safe"; "0"; "-i"; filelist_path;
   "-vf"; "fps=30,scale=1920:1080"; "-c:v"; "libx264"; "-pix_fmt";
   "yuv420p"; images_video].

Fixpoint filelist_entries (image_paths : list string) : string :=
  match image_paths with
  | [] => ""
  | img_path :: rest =>
      "file '" +:+ img_path +:+ "'" +:+ Py.nl +:+ "duration 2" +:+ Py.nl
      +:+ filelist_entries rest
  end.

Definition create_video_timeline (image_paths : list string) : M string :=
  print "🎬 Creating video timeline..." ;;
  let images_video := Py.path_join output_dir "images_video.mp4" in
  let filelist_path := Py.path_join output_dir "images_list.txt" in
  open_w filelist_path ;;
  match last image_paths with
  | None => raise IndexError "list index out of range"
  | Some final =>
      write_text filelist_path
        (filelist_entries image_paths
         +:+ "file '" +:+ final +:+ "'" +:+ Py.nl)
  end ;;
  try_except
    (subprocess_run (timeline_cmd filelist_path images_video) true ;;
     update_status "processing" 50 "Timeline de video creado" ;;
     ret images_video)
    only_called_process_error
    (fun e =>
       update_status "error" 0 ("Error creando timeline: " +:+ exn_str e) ;;
       ret "").

(** *** [add_thumbnail] *)

Definition thumbnail_clip_cmd (thumbnail_path thumbnail_video : string)
  : list string :=
  ["ffmpeg"; "-y"; "-loop"; "1"; "-i"; thumbnail_path; "-t"; "0.2"; "-vf";
   "scale=1920:1080"; "-c:v"; "libx264"; "-pix_fmt"; "yuv420p";
   thumbnail_video].

Definition concat_cmd (concat_list final_with_thumb : string)
  : list string :=
  ["ffmpeg"; "-y"; "-f"; "concat"; "-safe"; "0"; "-i"; concat_list; "-c";
   "copy"; final_with_thumb].

Definition add_thumbnail (video_path : string) : M string :=
  thumbnail <- config_get "thumbnail" ;;
  if negb (Py.truthy_opt thumbnail) then ret video_path
  else
    print "🖼️ Adding thumbnail..." ;;
    thumbnail <- get_item "thumbnail" ;;
    filename <- lift (Py.subscript thumbnail "filename") ;;
    operand <- lift (Py.path_operand filename) ;;
    let thumbnail_path := Py.path_join images_dir operand in
    let thumbnail_video := Py.path_join output_dir "thumbnail_video.mp4" in
    let final_with_thumb := Py.path_join output_dir "with_thumbnail.mp4" in
    made <- try_except
              (subprocess_run
                 (thumbnail_clip_cmd thumbnail_path thumbnail_video) true ;;
               ret true)
              only_called_process_error
              (fun e =>
                 print ("Warning: Error creating thumbnail video: "
                        +:+ exn_str e) ;;
                 ret false) ;;
    if negb made then ret video_path
    else
      let concat_list := Py.path_join output_dir "concat_list.txt" in
      open_w concat_list ;;
      write_text concat_list
        ("file '" +:+ thumbnail_video +:+ "'" +:+ Py.nl
         +:+ "file '" +:+ video_path +:+ "'" +:+ Py.nl) ;;
      try_except
        (subprocess_run (concat_cmd concat_list final_with_thumb) true ;;
         update_status "processing" 60 "Miniatura agregada" ;;
         ret final_with_thumb)
        only_called_process_error
        (fun e =>
           print ("Warning: Error adding thumbnail: " +:+ exn_str e) ;;
           ret video_path).

(** *** [add_audio] *)

(** The command line and [audio_inputs] after the two membership
    tests on [audio_files]. *)
Definition audio_inputs_of (video_path : string)
    (audio_files : gmap string string) : list string * list string :=
  let cmd := ["ffmpeg"; "-y"; "-i"; video_path] in
  let audio_inputs : list string := [] in
  let '(cmd, audio_inputs) :=
    match audio_files !! "narration" with
    | Some narration => (cmd ++ ["-i"; narration], audio_inputs ++ ["1:a"])
    | None => (cmd, audio_inputs)
    end in
  match audio_files !! "soundtrack" with
  | Some soundtrack => (cmd ++ ["-i"; soundtrack], audio_inputs ++ ["2:a"])
  | None => (cmd, audio_inputs)
  end.

(** The end of [add_audio], reached from both branches that have
    built a command line: the output is appended and the command run. *)
Definition mux (cmd : list string) (output_path : string) : M string :=
  let cmd := cmd ++ [output_path] in
  try_except
    (subprocess_run cmd true ;;
     update_status "processing" 75 "Audio agregado al video" ;;
     ret output_path)
    only_called_process_error
    (fun e =>
       update_status "error" 0 ("Error agregando audio: " +:+ exn_str e) ;;
       ret "").

Definition add_audio (video_path : string)
    (audio_files : gmap string string) : M string :=
  print "🔊 Adding audio tracks..." ;;
  let output_path := Py.path_join output_dir "with_audio.mp4" in
  let '(cmd, audio_inputs) := audio_inputs_of video_path audio_files in
  match length audio_inputs with
  | 1%nat =>
      mux (cmd ++ ["-c:v"; "copy"; "-c:a"; "aac"; "-map"; "0:v"; "-map";
                   "1:a"]) output_path
  | 2%nat =>
      mux (cmd ++ ["-filter_complex";
                   "[1:a][2:a]amix=inputs=2:duration=first:dropout_transition=2[audio]";
                   "-c:v"; "copy"; "-c:a"; "aac"; "-map"; "0:v"; "-map";
                   "[audio]"]) output_path
  | _ =>
      update_status "error" 0 "No audio tracks available" ;;
      ret ""
  end.

(** *** [apply_effects] *)

Definition effects_cmd (video_path filter_file output_path : string)
  : list string :=
  ["ffmpeg"; "-y"; "-i"; video_path; "-i"; filter_file; "-filter_complex";
   "[1:v]colorkey=green:0.3:0.2[fg];[0:v][fg]overlay[v]"; "-map"; "[v]";
   "-map"; "0:a"; "-c:a"; "copy"; "-c:v"; "libx264"; output_path].

Definition apply_effects (video_path : string) : M string :=
  selected <- config_get "selectedFilter" ;;
  if negb (Py.truthy_opt selected) then ret video_path
  else
    print "✨ Applying visual effects..." ;;
    selected' <- get_item "selectedFilter" ;;
    let filter_file :=
      Py.path_str ("public/filters/" +:+ fmt selected' +:+ ".mp4") in
    present <- path_exists filter_file ;;
    if negb present then
      print ("Warning: Filter file not found: " +:+ filter_file) ;;
      ret video_path
    else
      let output_path := Py.path_join output_dir "with_effects.mp4" in
      try_except
        (subprocess_run (effects_cmd video_path filter_file output_path)
           true ;;
         update_status "processing" 85 "Efectos visuales aplicados" ;;
         ret output_path)
        only_called_process_error
        (fun e =>
           print ("Warning: Error applying effects: " +:+ exn_str e) ;;
           ret video_path).

(** *** [add_fade_out] *)

Definition probe_cmd (video_path : string) : list string :=
  ["ffprobe"; "-v"; "quiet"; "-show_entries"; "format=duration"; "-of";
   "default=noprint_wrappers=1:nokey=1"; video_path].

Definition fade_cmd (video_path : string) (fade_start : spec_float)
    (output_path : string) : list string :=
  ["ffmpeg"; "-y"; "-i"; video_path; "-vf";
   "fade=out:st=" +:+ py_str_float w fade_start +:+ ":d=1.5"; "-af";
   "afade=out:st=" +:+ py_str_float w fade_start +:+ ":d=1.5"; "-c:v";
   "libx264"; "-c:a"; "aac"; output_path].

(** [float(text)]; the text of the error is that of a string without
    quotes or escapes. *)
Definition float_of_text (text : string) : M spec_float :=
  match py_float w text with
  | Some x => ret x
  | None =>
      raise ValueError
        ("could not convert string to float: '" +:+ text +:+ "'")
  end.

Definition add_fade_out (video_path : string) : M string :=
  print "🌅 Adding fade-out..." ;;
  let output_path := Py.path_join output_dir "final_video.mp4" in
  probed <- try_except
              (stdout <- subprocess_run (probe_cmd video_path) true ;;
               duration <- float_of_text (Py.strip stdout) ;;
               ret (Some duration))
              only_called_process_error
              (fun e =>
                 print ("Warning: Could not get video duration: "
                        +:+ exn_str e) ;;
                 ret None) ;;
  match probed with
  | None => ret video_path
  | Some duration =>
      let fade_start := Py.fsub duration Py.one_and_a_half in
      try_except
        (subprocess_run (fade_cmd video_path fade_start output_path) true ;;
         update_status "processing" 95 "Fade-out agregado" ;;
         ret output_path)
        only_called_process_error
        (fun e =>
           print ("Warning: Error adding fade-out: " +:+ exn_str e) ;;
           ret video_path)
  end.

(** *** [process] *)

Definition is_empty_str (s : string) : bool := negb (Py.str_truthy s).

Definition is_empty_list {A} (l : list A) : bool :=
  match l with [] => true | _ => false end.

Definition is_empty_dict (d : gmap string string) : bool :=
  bool_decide (d = ∅).

(** The body of the [try] block.  The two assignments that mark the
    completion enter the history as one update without message. *)
Definition process_body : M bool :=
  project <- get_item "id" ;;
  print ("🚀 Starting video processing for project: " +:+ fmt project) ;;
  valid <- validate_files ;;
  if negb valid then ret false
  else
    image_paths <- prepare_images ;;
    if is_empty_list image_paths then ret false
    else
      audio_files <- prepare_audio ;;
      if is_empty_dict audio_files then ret false
      else
        video_path <- create_video_timeline image_paths ;;
        if is_empty_str video_path then ret false
        else
          video_path <- add_thumbnail video_path ;;
          video_path <- add_audio video_path audio_files ;;
          if is_empty_str video_path then ret false
          else
            video_path <- apply_effects video_path ;;
            final_video <- add_fade_out video_path ;;
            set_item "status" (JStr "completed") ;;
            set_item "progress" (JInt 100) ;;
            note_status "completed" 100 "" ;;
            set_item "outputFile" (JStr (Py.basename final_video)) ;;
            stamp <- subprocess_run ["date"] false ;;
            set_item "completedAt" (JStr (Py.strip stamp)) ;;
            open_config_w ;;
            json_dump_config ;;
            print "✅ Video processing completed successfully!" ;;
            ret true.

(** The [except Exception as e] clause. *)
Definition process_handler (e : Exn) : M bool :=
  update_status "error" 0 ("Error inesperado: " +:+ exn_str e) ;;
  print ("❌ Unexpected error: " +:+ exn_str e) ;;
  ret false.

Definition process : M bool :=
  try_except process_body any_exception process_handler.

(** *** [__init__] and [main] *)

(** Reading and decoding [config.json]; the texts are those of a
    missing and of an empty file.  An object becomes the record;
    another document, which [json.load] accepts as well, is given
    back, being what [self.config] then is. *)
Definition init : M (option Foreign) :=
  effect (fun s =>
    match disk s with
    | Holds record => (Ret None, set_config record s)
    | Other doc => (Ret (Some doc), s)
    | Missing =>
        (Raise (mkExn OSError
                  ("[Errno 2] No such file or directory: '"
                   +:+ config_path +:+ "'")), s)
    | Torn =>
        (Raise (mkExn ValueError
                  "Expecting value: line 1 column 1 (char 0)"), s)
    end).

(** [process] when [self.config] is [doc], a document that is not a
    dict: the subscript [self.config['id']] in the first statement of
    the [try] block raises, and in the handler so does the first
    assignment of [update_status]. *)
Definition process_foreign (doc : Foreign) : M bool :=
  try_except (lift (Raise (Py.subscript_error (json_of doc)))) any_exception
    (fun _ => lift (Raise (Py.assignment_error (json_of doc)))).

(** [main], giving the argument of [sys.exit].  An exception that
    leaves [main] ends the interpreter with a traceback and the exit
    status 1. *)
Definition main : M Z :=
  present <- os_path_exists project_dir ;;
  if negb present then
    print ("Error: Project directory not found: " +:+ project_dir) ;;
    ret 1
  else
    foreign <- init ;;
    success <- match foreign with
               | None => process
               | Some doc => process_foreign doc
               end ;;
    ret (if success : bool then 0 else 1).

(** ** Vocabulary of the specification *)


Definition not_found (path : string) : Prop :=
  w_stat w path = None /\ w_exists w path = false.







(** The storage and the process do not fail. *)
Definition dependable : Prop :=
  (forall l, w_kill w l = false) /\
  (forall l p, w_open w l p = None) /\
  (forall l, w_dump w l = None).


(** The value of [10 + int((i + 1) / n * 20)]. *)
Definition image_progress_of (i n : nat) : Res Z :=
  match Py.truediv (Z.of_nat i + 1) (Z.of_nat n) with
  | Ret q =>
      match Py.int (Py.fmul q (Py.float_of_int 20)) with
      | Ret t => Ret (10 + t)
      | Raise e => Raise e
      | Killed => Killed
      end
  | Raise e => Raise e
  | Killed => Killed
  end.

(** The progress reported once [i] of thirty images are done, in exact
    integer arithmetic. *)
Definition progress_floor (i : nat) : Z := 10 + Z.of_nat i * 20 / 30.

(** The names of the first [n] normalised images. *)
Definition image_outputs (processed_dir : string) (n : nat) : list string :=
  map (image_output processed_dir) (seq 0 n).


(** The record [__init__] loads from the file, when the file holds an
    object; the exception with which [main] ends when it does not. *)
Definition record_of (f : File) : option (gmap string Json) :=
  match f with
  | Holds record => Some record
  | _ => None
  end.

Definition stranded (f : File) : option Exn :=
  match f with
  | Missing =>
      Some (mkExn OSError
              ("[Errno 2] No such file or directory: '"
               +:+ config_path +:+ "'"))
  | Torn => Some (mkExn ValueError "Expecting value: line 1 column 1 (char 0)")
  | Holds _ => None
  | Other doc => Some (Py.assignment_error (json_of doc))
  end.

(** ** Vocabulary of paths *)

Fixpoint no_slash (s : string) : bool :=
  match s with
  | "" => true
  | String c r => negb (Ascii.eqb c "/"%char) && no_slash r
  end.

(** A plain name: one component, neither empty nor a dot. *)
Definition plain_name (name : string) : Prop :=
  no_slash name = true /\ Py.keep name = [name].

(** The stem a name is put behind: empty, or ending in a separator. *)
Definition directory_stem (d : string) : Prop :=
  d = "" \/ exists q, d = q +:+ "/".

(** ** Further vocabulary: what a run leaves behind *)

(** The keys of the record that the worker assigns. *)
Definition assigned_key (k : string) : Prop :=
  k = "status" \/ k = "progress" \/ k = "message" \/ k = "outputFile" \/
  k = "completedAt".

(** [m] changes the record in memory at assigned keys only. *)
Definition touches_assigned_only {A} (m : M A) : Prop :=
  forall s k, ~ assigned_key k -> config (m s).2 !! k = config s !! k.

(** The file on disk holds the record in memory. *)
Definition synced (s : State) : Prop := disk s = Holds (config s).

(** [m] keeps the file in step with the record: from a synced state it
    returns in a synced state, and so it is when a command fails. *)
Definition keeps_synced {A} (m : M A) : Prop :=
  forall s, synced s ->
    match m s with
    | (Ret _, s') => synced s'
    | (Raise e, s') => exn_class e = CalledProcessError -> synced s'
    | (Killed, _) => True
    end.

(** The shapes of status update the worker makes. *)
Definition known (u : Update) : Prop :=
  (u_status u = "processing" /\ 10 <= u_progress u <= 95 /\
   u_message u <> "") \/
  (u_status u = "error" /\ u_progress u = 0 /\ u_message u <> "") \/
  (u_status u = "completed" /\ u_progress u = 100 /\ u_message u = "").

Definition known_since (tr0 : list Update) : Assertion :=
  fun _ full => exists tr, full = tr0 ++ tr /\ Forall known tr.

(** The record says that the run failed. *)
Definition failed (c : gmap string Json) : Prop :=
  c !! "status" = Some (JStr "error") /\ c !! "progress" = Some (JInt 0).

(** The artifacts that can be the final video, each with the message
    of the stage that made it. *)
Definition audio_video : string := Py.path_join output_dir "with_audio.mp4".
Definition effects_video : string :=
  Py.path_join output_dir "with_effects.mp4".
Definition faded_video : string := Py.path_join output_dir "final_video.mp4".

(** The video [v] at hand is the artifact of the stage whose message
    the record carries. *)
Definition stands (c : gmap string Json) (v : string) : Prop :=
  (v = audio_video /\ c !! "message" = Some (JStr "Audio agregado al video")) \/
  (v = effects_video /\
   c !! "message" = Some (JStr "Efectos visuales aplicados")) \/
  (v = faded_video /\ c !! "message" = Some (JStr "Fade-out agregado")).

(** The record says that the run is complete. *)
Definition finished (c : gmap string Json) : Prop :=
  c !! "status" = Some (JStr "completed") /\
  c !! "progress" = Some (JInt 100) /\
  is_Some (c !! "completedAt") /\
  ((c !! "outputFile" = Some (JStr "with_audio.mp4") /\
    c !! "message" = Some (JStr "Audio agregado al video")) \/
   (c !! "outputFile" = Some (JStr "with_effects.mp4") /\
    c !! "message" = Some (JStr "Efectos visuales aplicados")) \/
   (c !! "outputFile" = Some (JStr "final_video.mp4") /\
    c !! "message" = Some (JStr "Fade-out agregado"))).

(** [m] changes neither the record in memory nor the file on disk. *)
Definition inert {A} (m : M A) : Prop :=
  forall s, config (m s).2 = config s /\ disk (m s).2 = disk s.

(** The end of [process]: the record is marked complete and written. *)
Definition completion (final : string) : M bool :=
  set_item "status" (JStr "completed") ;;
  set_item "progress" (JInt 100) ;;
  note_status "completed" 100 "" ;;
  set_item "outputFile" (JStr (Py.basename final)) ;;
  stamp <- subprocess_run ["date"] false ;;
  set_item "completedAt" (JStr (Py.strip stamp)) ;;
  open_config_w ;;
  json_dump_config ;;
  print "✅ Video processing completed successfully!" ;;
  ret true.


(** From [s] to [s'] the record and the update history are unchanged. *)
Definition steady (s s' : State) : Prop :=
  config s' = config s /\ updates (log s') = updates (log s).

(** From [s] to [s'] there is the one update [processing] with
    [progress] and [message]. *)
Definition advanced (progress : Z) (message : string) (s s' : State)
  : Prop :=
  config s' = updated "processing" progress message (config s) /\
  updates (log s') =
    updates (log s) ++ [mkUpdate "processing" progress message].

(** [m] is a stage that may be skipped: it gives back [v] and leaves
    record and history alone, or gives [out] after its one update.  A
    failed command is never what ends it after the update. *)
Definition optional {A} (v out : A) (progress : Z) (message : string)
    (m : M A) : Prop :=
  forall s,
    match m s with
    | (Ret r, s') =>
        (r = v /\ steady s s') \/ (r = out /\ advanced progress message s s')
    | (Raise e, s') =>
        steady s s' \/
        (exn_class e <> CalledProcessError /\
         advanced progress message s s')
    | (Killed, s') => steady s s' \/ advanced progress message s s'
    end.

(** The programs the worker runs. *)
Definition tool (argv : list string) : bool :=
  match argv with
  | program :: _ =>
      String.eqb program "ffmpeg" || String.eqb program "ffprobe"
      || String.eqb program "date"
  | [] => false
  end.

(** The files the worker opens or writes and the directory it makes:
    [config.json] and three entries of the output directory. *)
Definition own_path (path : string) : Prop :=
  path = config_path \/
  path = Py.path_join output_dir "processed_images" \/
  path = Py.path_join output_dir "images_list.txt" \/
  path = Py.path_join output_dir "concat_list.txt".

(** What the worker does to its surroundings: it runs the three
    programs and writes at its own paths. *)
Definition permitted (e : Event) : Prop :=
  match e with
  | EvExec argv => tool argv = true
  | EvOpen path | EvWrite path _ | EvMkdir path => own_path path
  | _ => True
  end.

(** The tracks [prepare_audio] can hand over. *)
Definition narration_track : string :=
  Py.path_join output_dir "narration.wav".
Definition soundtrack_track : string :=
  Py.path_join output_dir "soundtrack.wav".

(** ** Paths *)

Lemma append_nil_l (a : string) : "" +:+ a = a.
Proof. reflexivity. Qed.

Lemma append_cons (c : ascii) (a b : string) :
  String c a +:+ b = String c (a +:+ b).
Proof. reflexivity. Qed.

Lemma append_assoc (a b c : string) : (a +:+ b) +:+ c = a +:+ (b +:+ c).
Proof.
  induction a as [|ch a IH]; [done|]. by rewrite !append_cons, IH.
Qed.

Lemma append_nil_r (a : string) : a +:+ "" = a.
Proof. induction a as [|ch a IH]; [done|]. by rewrite append_cons, IH. Qed.

Lemma keep_nonempty (part : string) : Forall (fun x => x <> "") (Py.keep part).
Proof.
  destruct part as [|c [|d r]]; simpl; repeat case_match;
    by repeat constructor.
Qed.

Lemma parts_from_nonempty (p : string) :
  forall acc, Forall (fun x => x <> "") (Py.parts_from acc p).
Proof.
  induction p as [|c r IH]; intros acc; simpl; [apply keep_nonempty|].
  destruct (Ascii.eqb c "/"); [|apply IH].
  apply Forall_app. split; [apply keep_nonempty | apply IH].
Qed.

Lemma path_str_truthy (p : string) : Py.str_truthy (Py.path_str p) = true.
Proof.
  unfold Py.path_str.
  pose proof (parts_from_nonempty p "") as Hparts. fold (Py.parts p) in Hparts.
  destruct (Py.root p) as [|c r]; [|done].
  destruct (Py.parts p) as [|x rest]; [done|].
  apply Forall_cons in Hparts as [Hx _]. simpl.
  destruct x; [done|]. by destruct rest.
Qed.

Lemma parts_from_plain (name : string) :
  forall acc, no_slash name = true ->
  Py.parts_from acc name = Py.keep (acc +:+ name).
Proof.
  induction name as [|c r IH]; intros acc Hname; simpl in *.
  - by rewrite append_nil_r.
  - apply andb_prop in Hname as [Hc Hr].
    destruct (Ascii.eqb c "/"); [done|].
    rewrite (IH _ Hr), append_assoc. done.
Qed.

Lemma parts_from_slash (q r : string) :
  forall acc,
  Py.parts_from acc (q +:+ String "/" r) =
    Py.parts_from acc q ++ Py.parts_from "" r.
Proof.
  induction q as [|c q IH]; intros acc; simpl; [done|].
  destruct (Ascii.eqb c "/"); [|apply IH].
  by rewrite IH, app_assoc.
Qed.

Lemma parts_prefix (d name : string) :
  directory_stem d -> plain_name name -> Py.parts (d +:+ name) = Py.parts d ++ [name].
Proof.
  intros [->|[q ->]] [Hname Hkeep]; unfold Py.parts.
  - rewrite append_nil_l, parts_from_plain, append_nil_l, Hkeep by done.
    done.
  - rewrite append_assoc, append_cons, append_nil_l.
    rewrite parts_from_slash, (parts_from_plain name), append_nil_l, Hkeep
      by done.
    change (q +:+ "/") with (q +:+ String "/" "").
    rewrite parts_from_slash. simpl. by rewrite app_nil_r.
Qed.

Lemma plain_head (name : string) :
  plain_name name -> exists c r, name = String c r /\ Ascii.eqb c "/"%char = false.
Proof.
  intros [Hname Hkeep]. destruct name as [|c r]; [done|].
  exists c, r. split; [done|]. simpl in Hname.
  apply andb_prop in Hname as [Hc _]. by destruct (Ascii.eqb c "/").
Qed.

Lemma root_prefix (d name : string) :
  directory_stem d -> plain_name name -> Py.root (d +:+ name) = Py.root d.
Proof.
  intros Hd Hname. destruct (plain_head name Hname) as (c & r & -> & Hc).
  destruct Hd as [->|[q ->]].
  - simpl. destruct r as [|? [|? ?]]; by rewrite Hc.
  - destruct q as [|a [|b [|e q]]]; simpl; rewrite ?Hc;
      repeat case_match; try done.
Qed.

Lemma join_parts_snoc (l : list string) (name : string) :
  exists stem, (forall x, Py.join_parts (l ++ [x]) = stem +:+ x) /\
               directory_stem stem.
Proof.
  clear name. induction l as [|y l (stem & IH & Hstem)].
  - exists "". split; [done | by left].
  - exists (y +:+ "/" +:+ stem). split.
    + intros x. simpl. specialize (IH x).
      destruct (l ++ [x]) eqn:Hl; [by destruct l|].
      by rewrite IH, !append_assoc.
    + right. destruct Hstem as [->|[q ->]].
      * exists y. by rewrite append_nil_r.
      * exists (y +:+ "/" +:+ q). by rewrite !append_assoc.
Qed.

Lemma prefix_append (r stem : string) :
  directory_stem r -> directory_stem stem -> directory_stem (r +:+ stem).
Proof.
  intros Hr [->|[q ->]].
  - by rewrite append_nil_r.
  - right. exists (r +:+ q). by rewrite append_assoc.
Qed.

Lemma root_is_prefix (p : string) : directory_stem (Py.root p).
Proof.
  destruct p as [|a [|b [|c p]]]; simpl; repeat case_match;
    first [ by left | by right; exists "" | by right; exists "/" ].
Qed.

Lemma os_path_join_prefix (d : string) :
  exists stem, directory_stem stem /\
    forall name, plain_name name -> Py.os_path_join d name = stem +:+ name.
Proof.
  assert (forall a, Py.ends_with_slash a = true -> directory_stem a) as Hends.
  { induction a as [|c a IH]; [done|]. simpl.
    destruct a as [|c' a'].
    - intros Hc. right. exists "". apply Ascii.eqb_eq in Hc. by subst.
    - intros H. destruct (IH H) as [?|[q Hq]]; [done|].
      right. exists (String c q). simpl. by rewrite Hq. }
  destruct d as [|c d].
  - exists "". split; [by left|]. intros name Hname.
    destruct (plain_head name Hname) as (a & r & -> & Ha).
    simpl. by rewrite Ha.
  - destruct (Py.ends_with_slash (String c d)) eqn:He.
    + exists (String c d). split; [by apply Hends|].
      intros name Hname.
      destruct (plain_head name Hname) as (a & r & -> & Ha).
      unfold Py.os_path_join. by rewrite Ha, He.
    + exists (String c d +:+ "/"). split; [right; by eexists|].
      intros name Hname.
      destruct (plain_head name Hname) as (a & r & -> & Ha).
      unfold Py.os_path_join. rewrite Ha, He. by rewrite append_assoc.
Qed.

(** Joining a plain_name name to a directory puts the name behind a directory_stem
    that depends on the directory alone. *)
Lemma path_join_plain (d : string) :
  exists stem, directory_stem stem /\
    forall name, plain_name name -> Py.path_join d name = stem +:+ name.
Proof.
  destruct (os_path_join_prefix d) as (d' & Hd' & Hjoin).
  destruct (join_parts_snoc (Py.parts d') "") as (stem & Hstem & Hpre).
  exists (Py.root d' +:+ stem).
  split; [apply prefix_append; [apply root_is_prefix | done]|].
  intros name Hname. unfold Py.path_join, Py.path_str.
  rewrite (Hjoin name Hname), (root_prefix d' name Hd' Hname),
    (parts_prefix d' name Hd' Hname).
  destruct (Py.root d') as [|c r]; [|by rewrite Hstem, append_assoc].
  destruct (Py.parts d' ++ [name]) eqn:Hl; [by destruct (Py.parts d')|].
  by rewrite <- Hl, Hstem.
Qed.

Lemma basename_from_plain (name : string) :
  forall acc, no_slash name = true -> Py.basename_from acc name = acc +:+ name.
Proof.
  induction name as [|c r IH]; intros acc Hname; simpl in *.
  - by rewrite append_nil_r.
  - apply andb_prop in Hname as [Hc Hr].
    destruct (Ascii.eqb c "/"); [done|].
    by rewrite (IH _ Hr), append_assoc.
Qed.

Lemma basename_from_join (d f : string) :
  forall acc, Py.basename_from acc (d +:+ String "/" f)
              = Py.basename_from "" f.
Proof.
  induction d as [|ch d IH]; intros acc; simpl; [done|].
  destruct (Ascii.eqb ch "/"); apply IH.
Qed.

Lemma basename_path_join (d name : string) :
  plain_name name -> Py.basename (Py.path_join d name) = name.
Proof.
  intros Hname. destruct (path_join_plain d) as (stem & Hstem & ->); [|done].
  unfold Py.basename. destruct Hname as [Hname _].
  destruct Hstem as [->|[q ->]].
  - by rewrite append_nil_l, basename_from_plain.
  - rewrite append_assoc, append_cons, append_nil_l, basename_from_join.
    by rewrite basename_from_plain.
Qed.

Lemma path_join_inj (d name name' : string) :
  plain_name name -> plain_name name' ->
  Py.path_join d name = Py.path_join d name' -> name = name'.
Proof.
  intros Hname Hname'. destruct (path_join_plain d) as (stem & _ & Hjoin).
  rewrite (Hjoin name Hname), (Hjoin name' Hname').
  apply (inj (String.app stem)).
Qed.

(** ** Laws of the monad and of the primitive steps *)

Lemma updates_app (l1 l2 : list Event) :
  updates (l1 ++ l2) = updates l1 ++ updates l2.
Proof. apply omap_app. Qed.

Lemma execs_app (l1 l2 : list Event) :
  execs (l1 ++ l2) = execs l1 ++ execs l2.
Proof. apply omap_app. Qed.

Lemma updates_silent (evs : list Event) :
  Forall silent evs -> updates evs = [].
Proof.
  induction 1 as [|e evs He _ IH]; [reflexivity|].
  unfold updates in *; simpl. rewrite He. exact IH.
Qed.

Lemma execs_not_exec (evs : list Event) :
  Forall not_exec evs -> execs evs = [].
Proof.
  induction 1 as [|e evs He _ IH]; [reflexivity|].
  unfold execs in *; simpl. rewrite He. exact IH.
Qed.

Section Emits.

Context {A B : Type} (phi : Event -> Prop).

Lemma emits_only_ret (a : A) : emits_only phi (ret a).
Proof. intros s. exists []. by rewrite app_nil_r. Qed.

Lemma emits_only_lift (r : Res A) : emits_only phi (lift r).
Proof. intros s. exists []. by rewrite app_nil_r. Qed.

Lemma emits_only_raise (c : ExnClass) (text : string) :
  emits_only phi (raise c text : M A).
Proof. intros s. exists []. by rewrite app_nil_r. Qed.

Lemma emits_only_bind (m : M A) (f : A -> M B) :
  emits_only phi m -> (forall a, emits_only phi (f a)) ->
  emits_only phi (bind m f).
Proof.
  intros Hm Hf s. unfold bind.
  destruct (Hm s) as (evs & Hlog & Hevs).
  destruct (m s) as [[a|e|] s1]; simpl in *;
    try (exists evs; by split).
  destruct (Hf a s1) as (evs' & Hlog' & Hevs').
  exists (evs ++ evs'). rewrite Hlog', Hlog, app_assoc.
  split; [done | by apply Forall_app].
Qed.

Lemma emits_only_try (body : M A) (catches : ExnClass -> bool)
    (handler : Exn -> M A) :
  emits_only phi body -> (forall e, emits_only phi (handler e)) ->
  emits_only phi (try_except body catches handler).
Proof.
  intros Hm Hh s. unfold try_except.
  destruct (Hm s) as (evs & Hlog & Hevs).
  destruct (body s) as [[a|e|] s1]; simpl in *;
    try (exists evs; by split).
  destruct (catches (exn_class e)); [|exists evs; by split].
  destruct (Hh e s1) as (evs' & Hlog' & Hevs').
  exists (evs ++ evs'). rewrite Hlog', Hlog, app_assoc.
  split; [done | by apply Forall_app].
Qed.

End Emits.

(** A primitive step appends at most one event. *)
Ltac emits_primitive :=
  let s := fresh "s" in
  intros s; unfold effect; destruct (w_kill w (log s));
  [ exists []; by rewrite app_nil_r | ];
  repeat case_match; simpl;
  first [ by (exists []; rewrite app_nil_r)
        | eexists [_]; split; [reflexivity | by repeat constructor] ].

Section EmitsPrimitive.

Context (phi : Event -> Prop).

Lemma emits_only_print (line : string) :
  phi (EvPrint line) -> emits_only phi (print line).
Proof. intros H. unfold print. emits_primitive. Qed.

Lemma emits_only_path_exists (p : string) : emits_only phi (path_exists p).
Proof. unfold path_exists. emits_primitive. Qed.

Lemma emits_only_os_path_exists (p : string) :
  emits_only phi (os_path_exists p).
Proof. unfold os_path_exists. emits_primitive. Qed.

Lemma emits_only_subprocess_run (argv : list string) (check : bool) :
  phi (EvExec argv) -> emits_only phi (subprocess_run argv check).
Proof. intros H. unfold subprocess_run. emits_primitive. Qed.

Lemma emits_only_open_config_w :
  phi (EvOpen config_path) -> emits_only phi open_config_w.
Proof. intros H. unfold open_config_w. emits_primitive. Qed.

Lemma emits_only_json_dump_config :
  (forall c, phi (EvDump c)) -> emits_only phi json_dump_config.
Proof. intros H. unfold json_dump_config. emits_primitive. Qed.

Lemma emits_only_open_w (path : string) :
  phi (EvOpen path) -> emits_only phi (open_w path).
Proof. intros H. unfold open_w. emits_primitive. Qed.

Lemma emits_only_write_text (path text : string) :
  phi (EvWrite path text) -> emits_only phi (write_text path text).
Proof. intros H. unfold write_text. emits_primitive. Qed.

Lemma emits_only_mkdir (path : string) :
  phi (EvMkdir path) -> emits_only phi (mkdir path).
Proof. intros H. unfold mkdir. emits_primitive. Qed.

Lemma emits_only_init : emits_only phi init.
Proof. unfold init. emits_primitive. Qed.

Lemma emits_only_set_item (k : string) (v : Json) :
  emits_only phi (set_item k v).
Proof. intros s. exists []. by rewrite app_nil_r. Qed.

Lemma emits_only_get_item (k : string) : emits_only phi (get_item k).
Proof.
  intros s. exists []. unfold get_item.
  destruct (config s !! k); by rewrite app_nil_r.
Qed.

Lemma emits_only_config_get (k : string) : emits_only phi (config_get k).
Proof. intros s. exists []. by rewrite app_nil_r. Qed.

Lemma emits_only_note_status (status : string) (progress : Z)
    (message : string) :
  phi (EvStatus status progress message) ->
  emits_only phi (note_status status progress message).
Proof. intros H s. eexists [_]. split; [reflexivity | by repeat constructor]. Qed.

End EmitsPrimitive.

Section Keeps.

Context {A B : Type}.

Lemma keeps_config_ret (a : A) : keeps_config (ret a).
Proof. done. Qed.

Lemma keeps_config_lift (r : Res A) : keeps_config (lift r).
Proof. done. Qed.

Lemma keeps_config_raise (c : ExnClass) (text : string) :
  keeps_config (raise c text : M A).
Proof. done. Qed.

Lemma keeps_config_bind (m : M A) (f : A -> M B) :
  keeps_config m -> (forall a, keeps_config (f a)) -> keeps_config (bind m f).
Proof.
  intros Hm Hf s. unfold bind. specialize (Hm s).
  destruct (m s) as [[a|e|] s1]; simpl in *; try done.
  by rewrite Hf.
Qed.

Lemma keeps_config_try (body : M A) (catches : ExnClass -> bool)
    (handler : Exn -> M A) :
  keeps_config body -> (forall e, keeps_config (handler e)) ->
  keeps_config (try_except body catches handler).
Proof.
  intros Hm Hh s. unfold try_except. specialize (Hm s).
  destruct (body s) as [[a|e|] s1]; simpl in *; try done.
  destruct (catches (exn_class e)); [|done]. by rewrite Hh.
Qed.

End Keeps.

Ltac keeps_primitive :=
  let s := fresh "s" in
  intros s; unfold effect; destruct (w_kill w (log s)); [done|];
  repeat case_match; done.

Lemma keeps_config_print (line : string) : keeps_config (print line).
Proof. unfold print. keeps_primitive. Qed.

Lemma keeps_config_path_exists (p : string) : keeps_config (path_exists p).
Proof. unfold path_exists. keeps_primitive. Qed.

Lemma keeps_config_os_path_exists (p : string) :
  keeps_config (os_path_exists p).
Proof. unfold os_path_exists. keeps_primitive. Qed.

Lemma keeps_config_subprocess_run (argv : list string) (check : bool) :
  keeps_config (subprocess_run argv check).
Proof. unfold subprocess_run. keeps_primitive. Qed.

Lemma keeps_config_open_config_w : keeps_config open_config_w.
Proof. unfold open_config_w. keeps_primitive. Qed.

Lemma keeps_config_json_dump_config : keeps_config json_dump_config.
Proof. unfold json_dump_config. keeps_primitive. Qed.

Lemma keeps_config_open_w (path : string) : keeps_config (open_w path).
Proof. unfold open_w. keeps_primitive. Qed.

Lemma keeps_config_write_text (path text : string) :
  keeps_config (write_text path text).
Proof. unfold write_text. keeps_primitive. Qed.

Lemma keeps_config_mkdir (path : string) : keeps_config (mkdir path).
Proof. unfold mkdir. keeps_primitive. Qed.

Lemma keeps_config_get_item (k : string) : keeps_config (get_item k).
Proof. intros s. unfold get_item. by destruct (config s !! k). Qed.

Lemma keeps_config_config_get (k : string) : keeps_config (config_get k).
Proof. done. Qed.

Lemma keeps_config_note_status (status : string) (progress : Z)
    (message : string) :
  keeps_config (note_status status progress message).
Proof. done. Qed.

(** Composite code is taken apart along its binds, tests and handlers. *)
Ltac emits_step side :=
  first
    [ apply emits_only_ret | apply emits_only_lift | apply emits_only_raise
    | apply emits_only_path_exists | apply emits_only_os_path_exists
    | apply emits_only_get_item
    | apply emits_only_config_get | apply emits_only_set_item
    | apply emits_only_init
    | apply emits_only_print; side
    | apply emits_only_subprocess_run; side
    | apply emits_only_open_config_w; side
    | apply emits_only_json_dump_config; intros; side
    | apply emits_only_open_w; side
    | apply emits_only_write_text; side
    | apply emits_only_mkdir; side
    | apply emits_only_note_status; side
    | apply emits_only_bind; [|intros ?]
    | apply emits_only_try; [|intros ?]
    | match goal with
      | |- emits_only _ (if ?b then _ else _) => destruct b
      | |- emits_only _ (match ?x with _ => _ end) => destruct x
      | |- emits_only _ (let '(_, _) := ?x in _) => destruct x
      | |- emits_only _ (float_of_text _) => unfold float_of_text
      | |- emits_only _ (let _ := _ in _) => cbv zeta
      end ].

Ltac keeps_step :=
  first
    [ apply keeps_config_ret | apply keeps_config_lift
    | apply keeps_config_raise | apply keeps_config_path_exists
    | apply keeps_config_os_path_exists
    | apply keeps_config_get_item | apply keeps_config_config_get
    | apply keeps_config_print | apply keeps_config_subprocess_run
    | apply keeps_config_open_config_w | apply keeps_config_json_dump_config
    | apply keeps_config_open_w | apply keeps_config_write_text
    | apply keeps_config_mkdir | apply keeps_config_note_status
    | apply keeps_config_bind; [|intros ?]
    | apply keeps_config_try; [|intros ?]
    | match goal with
      | |- keeps_config (if ?b then _ else _) => destruct b
      | |- keeps_config (match ?x with _ => _ end) => destruct x
      | |- keeps_config (let '(_, _) := ?x in _) => destruct x
      | |- keeps_config (float_of_text _) => unfold float_of_text
      | |- keeps_config (let _ := _ in _) => cbv zeta
      end ].

Ltac side_by_computation := first [ reflexivity | exact I | assumption ].

Ltac quietness :=
  split; [ repeat emits_step side_by_computation | repeat keeps_step ].

(** *** Rules of the logic *)

Section Rules.

Context {A B : Type}.
Implicit Types P E : Assertion.

Lemma hoare_conseq P P' (Q Q' : A -> Assertion) E E' (m : M A) :
  hoare P' m Q' E' ->
  (forall c tr, P c tr -> P' c tr) ->
  (forall a c tr, Q' a c tr -> Q a c tr) ->
  (forall c tr, E' c tr -> E c tr) ->
  hoare P m Q E.
Proof.
  intros Hm HP HQ HE s Hs. specialize (Hm s (HP _ _ Hs)).
  destruct (m s) as [[a|e|] s1]; auto.
Qed.

Lemma hoare_ret P (Q : A -> Assertion) E (a : A) :
  (forall c tr, P c tr -> Q a c tr) -> hoare P (ret a) Q E.
Proof. intros H s Hs. simpl. auto. Qed.

Lemma hoare_bind P (R : A -> Assertion) (Q : B -> Assertion) E
    (m : M A) (f : A -> M B) :
  hoare P m R E -> (forall a, hoare (R a) (f a) Q E) ->
  hoare P (bind m f) Q E.
Proof.
  intros Hm Hf s Hs. unfold bind. specialize (Hm s Hs).
  destruct (m s) as [[a|e|] s1]; auto.
  by apply Hf.
Qed.

Lemma hoare_try P (Q : A -> Assertion) E E' (body : M A)
    (catches : ExnClass -> bool) (handler : Exn -> M A) :
  hoare P body Q E' -> (forall e, hoare E' (handler e) Q E) ->
  (forall c tr, E' c tr -> E c tr) ->
  hoare P (try_except body catches handler) Q E.
Proof.
  intros Hm Hh HE s Hs. unfold try_except. specialize (Hm s Hs).
  destruct (body s) as [[a|e|] s1]; auto.
  destruct (catches (exn_class e)); [by apply Hh | auto].
Qed.

Lemma hoare_quiet P (m : M A) : quiet m -> hoare P m (fun _ => P) P.
Proof.
  intros [Hm Hc] s Hs. specialize (Hc s).
  destruct (Hm s) as (evs & Hlog & Hevs).
  assert (updates (log (m s).2) = updates (log s)) as Hup.
  { rewrite Hlog, updates_app, (updates_silent evs Hevs). apply app_nil_r. }
  destruct (m s) as [[a|e|] s1]; simpl in *; by rewrite Hc, Hup.
Qed.

Lemma hoare_get_item P (k : string) :
  hoare P (get_item k) (fun v c tr => P c tr /\ c !! k = Some v) P.
Proof. intros s Hs. unfold get_item. destruct (config s !! k) eqn:Hk; auto. Qed.

End Rules.

(** ** [update_status] *)

(** What the record and the update history are after a call, however
    the call ends. *)
Lemma update_status_view (status : string) (progress : Z) (message : string)
    (s : State) :
  let s' := (update_status status progress message s).2 in
  config s' = updated status progress message (config s) /\
  updates (log s') = updates (log s) ++ [mkUpdate status progress message].
Proof.
  unfold update_status.
  match goal with
  | |- context [bind open_config_w ?k] => set (tail := bind open_config_w k)
  end.
  assert (quiet tail) as [Hlog Hcfg] by (subst tail; quietness).
  cbv [bind set_item note_status ret updated].
  destruct (Py.str_truthy message); simpl;
    match goal with
    | |- context [tail ?s0] =>
        specialize (Hcfg s0); destruct (Hlog s0) as (evs & Hevs & Hsil);
        destruct (tail s0) as [[[]|e|] s1]; simpl in *;
        rewrite Hcfg, Hevs, !updates_app, (updates_silent evs Hsil), app_nil_r;
        done
    end.
Qed.

Lemma hoare_update_status (P : Assertion) (status : string) (progress : Z)
    (message : string) :
  hoare
    (fun c tr =>
       P (updated status progress message c)
         (tr ++ [mkUpdate status progress message]))
    (update_status status progress message) (fun _ => P) P.
Proof.
  intros s Hs.
  destruct (update_status_view status progress message s) as [Hc Hu].
  destruct (update_status status progress message s) as [[[]|e|] s1];
    simpl in *; by rewrite Hc, Hu.
Qed.

(** An update followed by the rest of the code. *)
Lemma hoare_seq_update {B} (P P' : Assertion) (Q : B -> Assertion)
    (E : Assertion) (status : string) (progress : Z) (message : string)
    (k : unit -> M B) :
  (forall c tr, P c tr ->
     P' (updated status progress message c)
        (tr ++ [mkUpdate status progress message])) ->
  (forall c tr, P' c tr -> E c tr) ->
  hoare P' (k tt) Q E ->
  hoare P (bind (update_status status progress message) k) Q E.
Proof.
  intros HP HE Hk. eapply hoare_bind.
  - eapply hoare_conseq; [apply (hoare_update_status P') | | |]; eauto.
  - intros []. exact Hk.
Qed.

(** A step that makes no update, followed by the rest of the code. *)
Lemma hoare_seq_quiet {A B} (P : Assertion) (Q : B -> Assertion)
    (E : Assertion) (m : M A) (k : A -> M B) :
  quiet m -> (forall c tr, P c tr -> E c tr) ->
  (forall a, hoare P (k a) Q E) ->
  hoare P (bind m k) Q E.
Proof.
  intros Hm HE Hk. eapply hoare_bind; [|exact Hk].
  eapply hoare_conseq; [apply (hoare_quiet P m Hm) | | |]; eauto.
Qed.

(** ** The invariant is kept along a run *)

Lemma monotone_processing_snoc (tr : list Update) (v : Update) :
  monotone_processing tr ->
  (forall u, last tr = Some u -> u_status u = "processing" ->
     u_status v = "processing" -> u_progress u <= u_progress v) ->
  monotone_processing (tr ++ [v]).
Proof.
  induction tr as [|u rest IH]; intros Hmono Hlast; [by simpl|].
  destruct rest as [|u' rest'].
  - simpl. split; [|done]. by apply Hlast.
  - destruct Hmono as [Huv Hrest]. split; [exact Huv|].
    apply IH; [exact Hrest|]. intros u0 Hu0. by apply Hlast.
Qed.

Lemma last_elem_of {X} (l : list X) (x : X) : last l = Some x -> x ∈ l.
Proof.
  intros H. apply last_Some in H as [l' ->]. apply elem_of_app. right.
  by apply list_elem_of_singleton.
Qed.

Lemma trace_inv_nil (p : Z) : trace_inv p [].
Proof. repeat split; constructor. Qed.

Lemma trace_inv_weaken (p q : Z) (tr : list Update) :
  p <= q -> trace_inv p tr -> trace_inv q tr.
Proof.
  intros Hpq (Hm & He & Ha & Hb). repeat split; try done.
  eapply Forall_impl; [exact Hb|]. intros u Hu Hs. specialize (Hu Hs). lia.
Qed.

(** Appending an update [v] that respects the bound reached so far. *)
Lemma trace_inv_snoc (p q : Z) (tr : list Update) (v : Update) :
  trace_inv p tr -> p <= q ->
  (u_status v = "processing" -> p <= u_progress v <= q) ->
  error_resets v -> audio_available v ->
  trace_inv q (tr ++ [v]).
Proof.
  intros (Hm & He & Ha & Hb) Hpq Hv Hve Hva. repeat split.
  - apply monotone_processing_snoc; [exact Hm|].
    intros u Hu Hus Hvs. apply last_elem_of in Hu.
    rewrite Forall_forall in Hb. specialize (Hb u Hu Hus).
    specialize (Hv Hvs). lia.
  - apply Forall_app. split; [exact He | by repeat constructor].
  - apply Forall_app. split; [exact Ha | by repeat constructor].
  - apply Forall_app. split.
    + eapply Forall_impl; [exact Hb|]. intros u Hu Hs. specialize (Hu Hs). lia.
    + repeat constructor. intros Hs. specialize (Hv Hs). lia.
Qed.

Lemma since_weaken (tr0 : list Update) (p q : Z) c c' full :
  p <= q -> since tr0 p c full -> since tr0 q c' full.
Proof.
  intros Hpq (tr & -> & Hinv). exists tr. split; [done|].
  by apply (trace_inv_weaken p q).
Qed.

Lemma since_snoc (tr0 : list Update) (p q : Z) (v : Update) c c' full :
  since tr0 p c full -> p <= q ->
  (u_status v = "processing" -> p <= u_progress v <= q) ->
  error_resets v -> audio_available v ->
  since tr0 q c' (full ++ [v]).
Proof.
  intros (tr & -> & Hinv) Hpq Hv Hve Hva. exists (tr ++ [v]).
  split; [by rewrite app_assoc|]. by apply (trace_inv_snoc p q).
Qed.

(** The three kinds of update the worker makes. *)
Lemma since_processing (tr0 : list Update) (p q : Z) (message : string)
    c c' full :
  since tr0 p c full -> p <= q -> message <> no_audio_message ->
  since tr0 q c' (full ++ [mkUpdate "processing" q message]).
Proof.
  intros H Hpq Hm. by apply (since_snoc tr0 p q _ c).
Qed.

Lemma since_error (tr0 : list Update) (p q : Z) (message : string)
    c c' full :
  since tr0 p c full -> p <= q -> message <> no_audio_message ->
  since tr0 q c' (full ++ [mkUpdate "error" 0 message]).
Proof.
  intros H Hpq Hm. by apply (since_snoc tr0 p q _ c).
Qed.

Lemma since_completed (tr0 : list Update) (p : Z) c c' full :
  since tr0 p c full ->
  since tr0 p c' (full ++ [mkUpdate "completed" 100 ""]).
Proof.
  intros H. by apply (since_snoc tr0 p p _ c).
Qed.

Lemma thirty_images_updated (status : string) (progress : Z)
    (message : string) (c : gmap string Json) :
  thirty_images c -> thirty_images (updated status progress message c).
Proof.
  intros (v & Hv & Hlen). exists v. split; [|done].
  unfold updated. destruct (Py.str_truthy message);
    by rewrite ?lookup_insert_ne.
Qed.

(** Steps of a proof about a stage: a step without update, an update
    that reports progress [q], an update that reports an error. *)
Ltac drop_frame H :=
  repeat match type of H with
         | _ /\ _ => destruct H as [H _]
         end.

Ltac to_failure :=
  let c := fresh "c" in let tr := fresh "tr" in let H := fresh "H" in
  intros c tr H;
  first [ exact H
        | eapply since_weaken; [|exact H]; lia
        | drop_frame H; eapply since_weaken; [|exact H]; lia ].

Ltac distinct_message :=
  unfold no_audio_message; simpl;
  let H := fresh "H" in intros H; discriminate H.

Ltac hquiet :=
  apply hoare_seq_quiet; [quietness | to_failure | intros ?].

Ltac hprocessing tr0 q :=
  apply (hoare_seq_update _ (since tr0 q));
  [ let H := fresh "H" in
    intros ? ? H; drop_frame H;
    eapply since_processing; [exact H | lia | distinct_message]
  | to_failure | ].

Ltac herror tr0 q :=
  apply (hoare_seq_update _ (since tr0 q));
  [ let H := fresh "H" in
    intros ? ? H; drop_frame H;
    eapply since_error; [exact H | lia | distinct_message]
  | to_failure | ].

Ltac hreturn :=
  apply hoare_ret; intros ? ? ?; simpl;
  first [ assumption | eapply since_weaken; [|eassumption]; lia | idtac ].

Lemma create_video_timeline_inv (tr0 : list Update)
    (image_paths : list string) :
  hoare (since tr0 40) (create_video_timeline image_paths)
    (fun _ => since tr0 50) (since tr0 100).
Proof.
  unfold create_video_timeline.
  hquiet. hquiet. hquiet.
  apply (hoare_try _ _ _ (since tr0 50)); [| |to_failure].
  - hquiet. hprocessing tr0 50. hreturn.
  - intros e. herror tr0 50. hreturn.
Qed.

(** *** Further rules *)

Lemma hoare_pure {A} (P : Assertion) (Q : A -> Assertion) (E : Assertion)
    (m : M A) (fact : Prop) :
  (forall c tr, P c tr -> fact) -> (fact -> hoare P m Q E) -> hoare P m Q E.
Proof. intros H1 H2 s Hs. exact (H2 (H1 _ _ Hs) s Hs). Qed.

Lemma hoare_seq_get_item {B} (P : Assertion) (Q : B -> Assertion)
    (E : Assertion) (k : string) (f : Json -> M B) :
  (forall c tr, P c tr -> E c tr) ->
  (forall v, hoare (fun c tr => P c tr /\ c !! k = Some v) (f v) Q E) ->
  hoare P (bind (get_item k) f) Q E.
Proof.
  intros HE Hf. eapply hoare_bind; [|exact Hf].
  eapply hoare_conseq; [apply (hoare_get_item P) | | |]; eauto.
Qed.

Lemma hoare_seq_lift {A B} (P : Assertion) (Q : B -> Assertion)
    (E : Assertion) (r : Res A) (f : A -> M B) :
  (forall c tr, P c tr -> E c tr) ->
  (forall a, r = Ret a -> hoare P (f a) Q E) ->
  hoare P (bind (lift r) f) Q E.
Proof.
  intros HE Hf s Hs. unfold bind, lift. destruct r as [a|e|]; auto.
  by apply Hf.
Qed.

Lemma hoare_seq_silent {A B} (P : Assertion) (Q : B -> Assertion)
    (E : Assertion) (m : M A) (k : A -> M B) :
  (forall c c' tr, P c tr -> P c' tr) ->
  emits_only silent m -> (forall c tr, P c tr -> E c tr) ->
  (forall a, hoare P (k a) Q E) ->
  hoare P (bind m k) Q E.
Proof.
  intros HP Hm HE Hk s Hs. unfold bind.
  destruct (Hm s) as (evs & Hlog & Hevs).
  assert (updates (log (m s).2) = updates (log s)) as Hup.
  { rewrite Hlog, updates_app, (updates_silent evs Hevs). apply app_nil_r. }
  assert (P (config (m s).2) (updates (log (m s).2))) as Hs'.
  { rewrite Hup. by apply (HP (config s)). }
  destruct (m s) as [[a|e|] s1]; simpl in *; auto.
  by apply Hk.
Qed.

Lemma hoare_seq_note {B} (P P' : Assertion) (Q : B -> Assertion)
    (E : Assertion) (status : string) (progress : Z) (message : string)
    (k : unit -> M B) :
  (forall c tr, P c tr -> P' c (tr ++ [mkUpdate status progress message])) ->
  hoare P' (k tt) Q E ->
  hoare P (bind (note_status status progress message) k) Q E.
Proof.
  intros HP Hk s Hs. unfold bind, note_status.
  apply Hk. simpl. rewrite updates_app. by apply HP.
Qed.

(** A stage whose invariant is already known, followed by the rest. *)
Lemma hoare_seq_stage {A B} (P P' : Assertion) (R : A -> Assertion)
    (Q : B -> Assertion) (E : Assertion) (m : M A) (k : A -> M B) :
  hoare P' m R E -> (forall c tr, P c tr -> P' c tr) ->
  (forall a, hoare (R a) (k a) Q E) ->
  hoare P (bind m k) Q E.
Proof.
  intros Hm HP Hk. eapply hoare_bind; [|exact Hk].
  eapply hoare_conseq; [exact Hm | | |]; eauto.
Qed.

(** *** The stages *)

Tactic Notation "hquiet" "as" ident(x) :=
  apply hoare_seq_quiet; [quietness | to_failure | intros x].

Lemma validate_images_inv (tr0 : list Update) (C : gmap string Json -> Prop)
    (imgs : list Json) :
  hoare (fun c full => since tr0 0 c full /\ C c) (validate_images imgs)
    (fun ok c full =>
       if ok then since tr0 0 c full /\ C c else since tr0 100 c full)
    (since tr0 100).
Proof.
  induction imgs as [|img_config rest IH]; simpl.
  - by apply hoare_ret.
  - hquiet. hquiet. hquiet as present. destruct present; simpl; [exact IH|].
    hquiet. herror tr0 100. hreturn.
Qed.

Lemma validate_files_inv (tr0 : list Update) :
  hoare (since tr0 0) validate_files
    (fun ok c full =>
       if ok then since tr0 10 c full /\ thirty_images c
       else since tr0 100 c full)
    (since tr0 100).
Proof.
  unfold validate_files. hquiet.
  apply hoare_seq_get_item; [to_failure|]. intros images.
  apply hoare_seq_lift; [to_failure|]. intros n Hn.
  destruct (Nat.eqb_spec n 30) as [->|Hne]; simpl.
  - hquiet. hquiet.
    eapply hoare_seq_stage;
      [apply (validate_images_inv tr0
                (fun c => c !! "images" = Some images)) | auto |].
    intros [|]; simpl; [|hreturn].
    hquiet. hquiet. hquiet as present. destruct present; simpl.
    + apply (hoare_seq_update _
               (fun c full => since tr0 10 c full /\ thirty_images c)).
      * intros c tr [H Himg]. split.
        -- eapply since_processing; [exact H | lia | distinct_message].
        -- apply thirty_images_updated. by exists images.
      * to_failure.
      * by apply hoare_ret.
    + hquiet. herror tr0 100. hreturn.
  - hquiet. hquiet. herror tr0 100. hreturn.
Qed.

Lemma progress_floor_0 : progress_floor 0 = 10.
Proof. reflexivity. Qed.

Lemma progress_floor_mono (i : nat) : progress_floor i <= progress_floor (S i).
Proof.
  unfold progress_floor. apply Z.add_le_mono_l, Z.div_le_mono; lia.
Qed.

Lemma progress_floor_bounds (i : nat) :
  (i <= 30)%nat -> 10 <= progress_floor i <= 30.
Proof.
  intros Hi. unfold progress_floor. split.
  - assert (0 <= Z.of_nat i * 20 / 30) by (apply Z.div_pos; lia). lia.
  - assert (Z.of_nat i * 20 / 30 <= 30 * 20 / 30)
      by (apply Z.div_le_mono; lia).
    change (30 * 20 / 30) with 20 in *. lia.
Qed.

(** With thirty images the floating-point expression of the source
    gives the exact integer quotient. *)
Lemma image_progress_table (i : nat) :
  (i < 30)%nat -> image_progress_of i 30 = Ret (progress_floor (S i)).
Proof.
  intros Hi.
  do 30 (destruct i as [|i]; [vm_compute; reflexivity|]).
  lia.
Qed.

Lemma image_progress_run (i n : nat) (v : Json) (s : State) :
  config s !! "images" = Some v -> Py.len v = Ret n ->
  image_progress i s =
    (match image_progress_of i n with
     | Ret q => Ret q | Raise e => Raise e | Killed => Killed
     end, s).
Proof.
  intros Hv Hlen. unfold image_progress, image_progress_of, bind, get_item, lift.
  rewrite Hv, Hlen.
  destruct (Py.truediv (Z.of_nat i + 1) (Z.of_nat n)) as [q|e|]; try done.
  by destruct (Py.int (Py.fmul q (Py.float_of_int 20))).
Qed.

Lemma hoare_seq_image_progress {B} (P : Assertion) (Q : B -> Assertion)
    (E : Assertion) (i : nat) (k : Z -> M B) :
  (i < 30)%nat ->
  (forall c tr, P c tr -> thirty_images c) ->
  hoare P (k (progress_floor (S i))) Q E ->
  hoare P (bind (image_progress i) k) Q E.
Proof.
  intros Hi Himg Hk s Hs. unfold bind.
  destruct (Himg _ _ Hs) as (v & Hv & Hlen).
  rewrite (image_progress_run i 30 v s Hv Hlen), (image_progress_table i Hi).
  by apply Hk.
Qed.

Lemma prepare_images_loop_inv (tr0 : list Update) (processed_dir : string)
    (items : list Json) :
  forall (i : nat) (image_paths : list string),
  (i + length items = 30)%nat ->
  hoare
    (fun c full => since tr0 (progress_floor i) c full /\ thirty_images c)
    (prepare_images_loop processed_dir i items image_paths)
    (fun _ => since tr0 30) (since tr0 100).
Proof.
  induction items as [|img_config rest IH]; intros i image_paths Hlen;
    simpl in *.
  - pose proof (progress_floor_bounds i). hreturn.
    destruct H0 as [H0 _]. eapply since_weaken; [|exact H0]. lia.
  - pose proof (progress_floor_bounds i).
    pose proof (progress_floor_bounds (S i)).
    pose proof (progress_floor_mono i).
    hquiet. hquiet.
    eapply (hoare_bind _
              (fun r c full =>
                 match r with
                 | Some _ =>
                     since tr0 (progress_floor (S i)) c full /\ thirty_images c
                 | None => since tr0 30 c full
                 end)).
    + apply (hoare_try _ _ _ (since tr0 30)); [| |to_failure].
      * hquiet.
        apply hoare_seq_image_progress; [lia | by intros c tr [_ ?] |].
        apply (hoare_seq_update _
                 (fun c full =>
                    since tr0 (progress_floor (S i)) c full /\
                    thirty_images c)).
        -- intros c tr [Hs Himg]. split.
           ++ eapply since_processing; [exact Hs | lia | distinct_message].
           ++ by apply thirty_images_updated.
        -- to_failure.
        -- by apply hoare_ret.
      * intros e. herror tr0 30. hreturn.
    + intros [image_paths'|].
      * apply IH. lia.
      * hreturn.
Qed.

Lemma len_iter (v : Json) (n : nat) (items : list Json) :
  Py.len v = Ret n -> Py.iter v = Ret items -> length items = n.
Proof.
  destruct v; simpl; try done; intros [= <-] [= <-]; try done.
  - induction s as [|ch s IH]; simpl; congruence.
  - by rewrite length_map.
Qed.

Lemma prepare_images_inv (tr0 : list Update) :
  hoare (fun c full => since tr0 10 c full /\ thirty_images c)
    prepare_images (fun _ => since tr0 30) (since tr0 100).
Proof.
  unfold prepare_images. hquiet. hquiet.
  apply hoare_seq_get_item; [to_failure|]. intros images.
  apply hoare_seq_lift; [to_failure|]. intros items Hitems.
  apply (hoare_pure _ _ _ _ (length items = 30%nat)).
  - intros c tr [[_ (v & Hv & Hlen)] Himages].
    rewrite Hv in Himages. injection Himages as ->.
    by apply (len_iter images).
  - intros Hlen. eapply hoare_conseq;
      [apply (prepare_images_loop_inv tr0 _ items 0%nat []); by rewrite Hlen
      | | auto | auto].
    by intros c tr [H _].
Qed.

Lemma prepare_audio_inv (tr0 : list Update) :
  hoare (since tr0 30) prepare_audio
    (fun d c full =>
       since tr0 40 c full /\ (d = ∅ \/ is_Some (d !! "narration")))
    (since tr0 100).
Proof.
  unfold prepare_audio. hquiet. hquiet. hquiet.
  eapply (hoare_bind _
            (fun r c full =>
               since tr0 35 c full /\
               match r with
               | Some d => is_Some (d !! "narration")
               | None => True
               end)).
  - apply (hoare_try _ _ _ (since tr0 35)); [| |to_failure].
    + hquiet. hprocessing tr0 35. apply hoare_ret. intros c tr H.
      split; [exact H|]. rewrite lookup_insert_eq. by eexists.
    + intros e. herror tr0 35. by apply hoare_ret.
  - intros [d|].
    + apply (hoare_pure _ _ _ _ (is_Some (d !! "narration")));
        [by intros c tr [_ ?]|]. intros Hd.
      eapply hoare_conseq with
        (P' := since tr0 35)
        (Q' := fun d' c full =>
                 since tr0 40 c full /\ is_Some (d' !! "narration"))
        (E' := since tr0 100);
        [| by intros c tr [? _] | intros d' c tr [? ?]; auto | auto].
      hquiet as selected. destruct (Py.truthy_opt selected).
      * hquiet. hquiet as present. destruct present.
        -- apply (hoare_try _ _ _ (since tr0 40)); [| |to_failure].
           ++ hquiet. hprocessing tr0 40. apply hoare_ret. intros c tr H.
              split; [exact H|]. by rewrite lookup_insert_ne.
           ++ intros e. hquiet. apply hoare_ret. intros c tr H. by split.
        -- apply hoare_ret. intros c tr H. split; [|done].
           eapply since_weaken; [|exact H]. lia.
      * apply hoare_ret. intros c tr H. split; [|done].
        eapply since_weaken; [|exact H]. lia.
    + apply hoare_ret. intros c tr [H _]. split; [|by left].
      eapply since_weaken; [|exact H]. lia.
Qed.

Lemma add_thumbnail_inv (tr0 : list Update) (video_path : string) :
  hoare (since tr0 50) (add_thumbnail video_path)
    (fun _ => since tr0 60) (since tr0 100).
Proof.
  unfold add_thumbnail. hquiet as thumbnail.
  destruct (Py.truthy_opt thumbnail); simpl; [|hreturn].
  hquiet. hquiet. hquiet. hquiet.
  eapply (hoare_bind _ (fun _ => since tr0 50)).
  - apply (hoare_try _ _ _ (since tr0 50)); [| |to_failure].
    + hquiet. hreturn.
    + intros e. hquiet. hreturn.
  - intros made. destruct made; simpl; [|hreturn].
    hquiet. hquiet.
    apply (hoare_try _ _ _ (since tr0 60)); [| |to_failure].
    + hquiet. hprocessing tr0 60. hreturn.
    + intros e. hquiet. hreturn.
Qed.

Lemma mux_inv (tr0 : list Update) (cmd : list string) (output_path : string) :
  hoare (since tr0 60) (mux cmd output_path)
    (fun _ => since tr0 75) (since tr0 100).
Proof.
  unfold mux.
  apply (hoare_try _ _ _ (since tr0 75)); [| |to_failure].
  - hquiet. hprocessing tr0 75. hreturn.
  - intros e. herror tr0 75. hreturn.
Qed.

(** With the narration among the prepared tracks, [audio_inputs] has
    one or two entries. *)
Lemma audio_inputs_with_narration (video_path : string)
    (audio_files : gmap string string) :
  is_Some (audio_files !! "narration") ->
  length (audio_inputs_of video_path audio_files).2 = 1%nat \/
  length (audio_inputs_of video_path audio_files).2 = 2%nat.
Proof.
  intros [narration Hn]. unfold audio_inputs_of. rewrite Hn.
  destruct (audio_files !! "soundtrack"); simpl; auto.
Qed.

Lemma add_audio_inv (tr0 : list Update) (video_path : string)
    (audio_files : gmap string string) :
  is_Some (audio_files !! "narration") ->
  hoare (since tr0 60) (add_audio video_path audio_files)
    (fun _ => since tr0 75) (since tr0 100).
Proof.
  intros Hn. unfold add_audio. hquiet.
  pose proof (audio_inputs_with_narration video_path audio_files Hn) as Hlen.
  destruct (audio_inputs_of video_path audio_files) as [cmd audio_inputs].
  simpl in Hlen. destruct Hlen as [-> | ->]; apply mux_inv.
Qed.

Lemma apply_effects_inv (tr0 : list Update) (video_path : string) :
  hoare (since tr0 75) (apply_effects video_path)
    (fun _ => since tr0 85) (since tr0 100).
Proof.
  unfold apply_effects. hquiet as selected.
  destruct (Py.truthy_opt selected); simpl; [|hreturn].
  hquiet. hquiet. hquiet as present. destruct present; simpl.
  - apply (hoare_try _ _ _ (since tr0 85)); [| |to_failure].
    + hquiet. hprocessing tr0 85. hreturn.
    + intros e. hquiet. hreturn.
  - hquiet. hreturn.
Qed.

Lemma quiet_float_of_text (text : string) : quiet (float_of_text text).
Proof. unfold float_of_text. quietness. Qed.

Lemma add_fade_out_inv (tr0 : list Update) (video_path : string) :
  hoare (since tr0 85) (add_fade_out video_path)
    (fun _ => since tr0 95) (since tr0 100).
Proof.
  unfold add_fade_out. hquiet.
  eapply (hoare_bind _ (fun _ => since tr0 85)).
  - apply (hoare_try _ _ _ (since tr0 85)); [| |to_failure].
    + hquiet.
      apply hoare_seq_quiet;
        [apply quiet_float_of_text | to_failure | intros duration].
      hreturn.
    + intros e. hquiet. hreturn.
  - intros [duration|]; [|hreturn].
    apply (hoare_try _ _ _ (since tr0 95)); [| |to_failure].
    + hquiet. hprocessing tr0 95. hreturn.
    + intros e. hquiet. hreturn.
Qed.

(** *** The coordinator *)

Ltac hsilent :=
  apply hoare_seq_silent;
  [ by intros ? ? ? ?
  | repeat emits_step side_by_computation
  | to_failure
  | intros ? ].

Lemma process_body_inv (tr0 : list Update) :
  hoare (since tr0 0) process_body (fun _ => since tr0 100) (since tr0 100).
Proof.
  unfold process_body. hquiet. hquiet.
  eapply hoare_seq_stage; [apply validate_files_inv | auto |].
  intros valid. destruct valid; simpl; [|hreturn].
  eapply hoare_seq_stage; [apply prepare_images_inv | auto |].
  intros image_paths. destruct (is_empty_list image_paths); [hreturn|].
  eapply hoare_seq_stage; [apply prepare_audio_inv | auto |].
  intros audio_files.
  destruct (is_empty_dict audio_files) eqn:Hempty;
    [apply hoare_ret; to_failure|].
  apply (hoare_pure _ _ _ _ (is_Some (audio_files !! "narration"))).
  { intros c tr [_ [-> | H]]; [|exact H].
    unfold is_empty_dict in Hempty. by rewrite bool_decide_eq_true_2 in Hempty. }
  intros Hnarration.
  eapply hoare_seq_stage;
    [apply create_video_timeline_inv | by intros c tr [? _] |].
  intros video_path. destruct (is_empty_str video_path); [hreturn|].
  eapply hoare_seq_stage; [apply add_thumbnail_inv | auto |].
  intros video_path1.
  eapply hoare_seq_stage;
    [apply (add_audio_inv tr0 _ _ Hnarration)
    | intros c tr H; eapply since_weaken; [|exact H]; lia |].
  intros video_path2. destruct (is_empty_str video_path2); [hreturn|].
  eapply hoare_seq_stage; [apply apply_effects_inv | auto |].
  intros video_path3.
  eapply hoare_seq_stage; [apply add_fade_out_inv | auto |].
  intros final_video.
  hsilent. hsilent.
  apply (hoare_seq_note _ (since tr0 95));
    [intros c tr H; by apply (since_completed tr0 95 c)|].
  hsilent. hsilent. hsilent. hsilent. hsilent. hsilent. hreturn.
Qed.

Lemma process_inv (tr0 : list Update) :
  hoare (since tr0 0) process (fun _ => since tr0 100) (since tr0 100).
Proof.
  unfold process, process_handler.
  apply (hoare_try _ _ _ (since tr0 100)); [apply process_body_inv | | auto].
  intros e. herror tr0 100. hquiet. hreturn.
Qed.

(** ** The status record along a run *)

Lemma since_start (s : State) (p : Z) :
  since (updates (log s)) p (config s) (updates (log s)).
Proof. exists []. split; [by rewrite app_nil_r | apply trace_inv_nil]. Qed.

(** What [process] adds to the update history satisfies the invariant. *)
Lemma process_trace (s : State) :
  exists tr,
    updates (log (process s).2) = updates (log s) ++ tr /\ trace_inv 100 tr.
Proof.
  pose proof (process_inv (updates (log s)) s (since_start s 0)) as H.
  destruct (process s) as [[b|e|] s1]; exact H.
Qed.

Lemma monotone_processing_lookup (tr : list Update) (i : nat) (u v : Update) :
  monotone_processing tr ->
  tr !! i = Some u -> tr !! S i = Some v ->
  u_status u = "processing" -> u_status v = "processing" ->
  u_progress u <= u_progress v.
Proof.
  revert i. induction tr as [|x rest IH]; intros i Hmono Hu Hv; [done|].
  destruct Hmono as [Hhead Hrest]. destruct i as [|i].
  - simpl in Hu, Hv. injection Hu as ->.
    destruct rest as [|y rest']; [done|]. simpl in Hv. injection Hv as ->.
    exact Hhead.
  - exact (IH i Hrest Hu Hv).
Qed.

(** C1. In every run of [process], of two successive status updates
    that are both [processing] the later one reports at least the
    progress of the earlier one, and every update to [error] sets the
    progress to 0. *)
Theorem status_updates_invariant (s : State) :
  exists tr,
    updates (log (process s).2) = updates (log s) ++ tr /\
    (forall i u v,
       tr !! i = Some u -> tr !! S i = Some v ->
       u_status u = "processing" -> u_status v = "processing" ->
       u_progress u <= u_progress v) /\
    (forall u, u ∈ tr -> u_status u = "error" -> u_progress u = 0).
Proof.
  destruct (process_trace s) as (tr & Hlog & Hmono & Herr & _ & _).
  exists tr. split; [exact Hlog|]. split.
  - intros i u v. by apply monotone_processing_lookup.
  - intros u Hu. rewrite Forall_forall in Herr. by apply Herr.
Qed.

(** When no track is at hand [add_audio] does report it, so the
    message marks the branch. *)
Lemma add_audio_without_tracks (video_path : string)
    (audio_files : gmap string string) (s : State) :
  audio_files !! "narration" = None -> audio_files !! "soundtrack" = None ->
  w_kill w (log s) = false ->
  updates (log (add_audio video_path audio_files s).2) =
    updates (log s) ++ [mkUpdate "error" 0 no_audio_message].
Proof.
  intros Hn Hs Hkill. unfold add_audio, audio_inputs_of. rewrite Hn, Hs. simpl.
  unfold bind at 1. unfold print, effect. rewrite Hkill.
  unfold bind.
  destruct (update_status_view "error" 0 "No audio tracks available"
              (emit (EvPrint "🔊 Adding audio tracks...") s)) as [_ Hu].
  destruct (update_status "error" 0 "No audio tracks available"
              (emit (EvPrint "🔊 Adding audio tracks...") s))
    as [[[]|e|] s1]; simpl in *; rewrite Hu; unfold emit; simpl;
    by rewrite updates_app, app_nil_r.
Qed.

(** C9. Called from [process], [add_audio] never reaches its
    [No audio tracks available] branch: a non-empty result of
    [prepare_audio] holds the narration, so [audio_inputs] has one or
    two entries, and no update with that message is ever made. *)
Theorem no_audio_branch_unreachable (s : State) :
  (forall audio_files s1 video_path,
     prepare_audio s = (Ret audio_files, s1) ->
     is_empty_dict audio_files = false ->
     is_Some (audio_files !! "narration") /\
     (length (audio_inputs_of video_path audio_files).2 = 1%nat \/
      length (audio_inputs_of video_path audio_files).2 = 2%nat)) /\
  (exists tr,
     updates (log (process s).2) = updates (log s) ++ tr /\
     forall u, u ∈ tr -> u_message u <> no_audio_message).
Proof.
  split.
  - intros audio_files s1 video_path Hrun Hempty.
    pose proof (prepare_audio_inv (updates (log s)) s (since_start s 30)) as H.
    rewrite Hrun in H. destruct H as [_ [-> | Hn]].
    + unfold is_empty_dict in Hempty.
      by rewrite bool_decide_eq_true_2 in Hempty.
    + split; [exact Hn|]. by apply audio_inputs_with_narration.
  - destruct (process_trace s) as (tr & Hlog & _ & _ & Haudio & _).
    exists tr. split; [exact Hlog|].
    intros u Hu. rewrite Forall_forall in Haudio. by apply Haudio.
Qed.

(** ** The validation stage *)

Lemma harmless_silent (evs : list Event) : Forall harmless evs -> Forall silent evs.
Proof. intros H. eapply Forall_impl; [exact H|]. by intros e [? _]. Qed.

Lemma harmless_not_exec (evs : list Event) :
  Forall harmless evs -> Forall not_exec evs.
Proof. intros H. eapply Forall_impl; [exact H|]. by intros e [_ ?]. Qed.

(** A call of [update_status], event by event. *)
Lemma update_status_run (status : string) (progress : Z) (message : string)
    (s : State) :
  exists evs,
    log (update_status status progress message s).2 =
      log s ++ EvStatus status progress message :: evs /\
    Forall harmless evs /\
    (dependable -> (update_status status progress message s).1 = Ret tt).
Proof.
  unfold update_status.
  match goal with
  | |- context [bind open_config_w ?k] => set (tail := bind open_config_w k)
  end.
  assert (emits_only harmless tail) as Hlog.
  { subst tail. repeat emits_step ltac:(by split). }
  assert (dependable -> forall s0, (tail s0).1 = Ret tt) as Hdep.
  { intros (Hkill & Hopen & Hdump) s0. subst tail.
    unfold bind, open_config_w, json_dump_config, print, effect. simpl.
    rewrite Hkill, Hopen. simpl. rewrite Hkill, Hdump. simpl.
    by rewrite Hkill. }
  cbv [bind set_item note_status ret].
  destruct (Py.str_truthy message); simpl;
    match goal with
    | |- context [tail ?s0] =>
        destruct (Hlog s0) as (evs & Hevs & Hharm);
        specialize (fun H => Hdep H s0);
        destruct (tail s0) as [[[]|e|] s1]; simpl in *;
        exists evs; rewrite Hevs, <- app_assoc; done
    end.
Qed.
(** Single steps of a run. *)
Lemma run_lift {A B} (a : A) (f : A -> M B) (s : State) :
  bind (lift (Ret a)) f s = f a s.
Proof. reflexivity. Qed.

Lemma run_get_item {B} (k : string) (v : Json) (f : Json -> M B) (s : State) :
  config s !! k = Some v -> bind (get_item k) f s = f v s.
Proof. intros H. unfold bind, get_item. by rewrite H. Qed.

Lemma run_path_exists {B} (p : string) (f : bool -> M B) (s : State) :
  w_kill w (log s) = false -> w_stat w p = None ->
  bind (path_exists p) f s = f (w_exists w p) s.
Proof. intros H Hp. unfold bind, path_exists, effect. by rewrite H, Hp. Qed.

Lemma run_os_path_exists {B} (p : string) (f : bool -> M B) (s : State) :
  w_kill w (log s) = false ->
  bind (os_path_exists p) f s = f (w_exists w p) s.
Proof. intros H. unfold bind, os_path_exists, effect. by rewrite H. Qed.

Lemma run_print {B} (line : string) (f : unit -> M B) (s : State) :
  w_kill w (log s) = false ->
  bind (print line) f s = f tt (emit (EvPrint line) s).
Proof. intros H. unfold bind, print, effect. by rewrite H. Qed.

Lemma bind_assoc {A B C} (m : M A) (f : A -> M B) (g : B -> M C) (s : State) :
  bind (bind m f) g s = bind m (fun x => bind (f x) g) s.
Proof. unfold bind. by destruct (m s) as [[a|e|] s1]. Qed.

(** Runs the leading steps whose outcome the hypotheses fix. *)
Ltac run_known :=
  repeat
    (cbv beta;
     first
       [ rewrite run_lift
       | rewrite bind_assoc
       | match goal with
         | H : ?x = Ret _ |- context [lift ?x] => rewrite H
         | H : config ?s !! ?k = Some _ |- context [bind (get_item ?k) _ ?s] =>
             rewrite (run_get_item _ _ _ _ H)
         end ]).

(** Taking a successful run apart. *)
Lemma bind_ret_inv {A B} (m : M A) (f : A -> M B) (s s' : State) (b : B) :
  bind m f s = (Ret b, s') ->
  exists a s1, m s = (Ret a, s1) /\ f a s1 = (Ret b, s').
Proof.
  unfold bind. destruct (m s) as [[a|e|] s1]; try done. intros H. eauto.
Qed.







(** *** The validation stage *)






(** ** The image stage *)









(** ** The status recorder, step by step *)

(** Every way the writing of the record can end: killed or refused
    before the file is opened, killed or failing after it is opened and
    before the dump is complete, killed after the dump, or done. *)
Lemma persist_cases (line : string) (s : State) :
  let r := ((open_config_w ;; json_dump_config ;; print line) s).1 in
  let s' := ((open_config_w ;; json_dump_config ;; print line) s).2 in
  config s' = config s /\
  (((r = Killed \/ exists text, r = Raise (mkExn OSError text)) /\
    log s' = log s /\ disk s' = disk s) \/
   ((r = Killed \/ exists text, r = Raise (mkExn OSError text)) /\
    log s' = log s ++ [EvOpen config_path] /\ disk s' = Torn) \/
   (r = Killed /\
    log s' = log s ++ [EvOpen config_path; EvDump (config s)] /\
    disk s' = Holds (config s)) \/
   (r = Ret tt /\
    log s' = log s ++ [EvOpen config_path; EvDump (config s); EvPrint line] /\
    disk s' = Holds (config s))).
Proof.
  unfold bind, open_config_w, json_dump_config, print, effect.
  destruct (w_kill w (log s)); simpl; [by eauto 10|].
  destruct (w_open w (log s) config_path); simpl; [by eauto 10|].
  destruct (w_kill w (log s ++ [EvOpen config_path])); simpl;
    [split; [done|]; right; by eauto 10|].
  destruct (w_dump w (log s ++ [EvOpen config_path])); simpl;
    [split; [done|]; right; by eauto 10|].
  rewrite <- !app_assoc. simpl.
  destruct (w_kill w _); simpl; (split; [done|]).
  - right. right. left. by rewrite <- !app_assoc.
  - right. right. right. by rewrite <- !app_assoc.
Qed.

Lemma update_status_cases (status : string) (progress : Z) (message : string)
    (s : State) :
  let r := (update_status status progress message s).1 in
  let s' := (update_status status progress message s).2 in
  let noted := log s ++ [EvStatus status progress message] in
  config s' = updated status progress message (config s) /\
  (((r = Killed \/ exists text, r = Raise (mkExn OSError text)) /\
    log s' = noted /\ disk s' = disk s) \/
   ((r = Killed \/ exists text, r = Raise (mkExn OSError text)) /\
    log s' = noted ++ [EvOpen config_path] /\ disk s' = Torn) \/
   (r = Killed /\
    log s' = noted ++ [EvOpen config_path; EvDump (config s')] /\
    disk s' = Holds (config s')) \/
   (r = Ret tt /\
    log s' = noted ++ [EvOpen config_path; EvDump (config s');
                       EvPrint (status_line status progress message)] /\
    disk s' = Holds (config s'))).
Proof.
  unfold update_status. fold (status_line status progress message).
  match goal with
  | |- context [bind open_config_w ?k] => set (tail := bind open_config_w k)
  end.
  cbv [bind set_item note_status ret updated].
  destruct (Py.str_truthy message); simpl;
    match goal with
    | |- context [tail ?s0] =>
        destruct (persist_cases (status_line status progress message) s0)
          as [Hc Hcases];
        fold tail in Hc, Hcases; simpl in Hc, Hcases;
        rewrite Hc; split; [done|]; exact Hcases
    end.
Qed.

Lemma update_status_dependable (status : string) (progress : Z)
    (message : string) (s : State) :
  dependable -> (update_status status progress message s).1 = Ret tt.
Proof.
  intros Hd.
  destruct (update_status_run status progress message s) as (_ & _ & _ & H).
  by apply H.
Qed.

Lemma updated_status (status : string) (progress : Z) (message : string)
    (c : gmap string Json) :
  updated status progress message c !! "status" = Some (JStr status) /\
  updated status progress message c !! "progress" = Some (JInt progress) /\
  updated status progress message c !! "message" =
    if Py.str_truthy message then Some (JStr message) else c !! "message".
Proof.
  unfold updated. destruct (Py.str_truthy message);
    repeat split; by simplify_map_eq.
Qed.

Lemma updated_frame (status : string) (progress : Z) (message : string)
    (c : gmap string Json) (k : string) :
  k <> "status" -> k <> "progress" -> k <> "message" ->
  updated status progress message c !! k = c !! k.
Proof.
  intros H1 H2 H3. unfold updated.
  destruct (Py.str_truthy message); by rewrite ?lookup_insert_ne.
Qed.

(** C3 (amended). A call of [update_status] overwrites [status] and
    [progress] in memory with its arguments, and [message] when the
    message given is not empty (an empty one leaves the stored message
    as it was); it then rewrites the whole record to [config.json],
    which holds the updated record when the call returns. *)
Theorem update_status_overwrites (status : string) (progress : Z)
    (message : string) (s : State) :
  let r := (update_status status progress message s).1 in
  let s' := (update_status status progress message s).2 in
  config s' !! "status" = Some (JStr status) /\
  config s' !! "progress" = Some (JInt progress) /\
  config s' !! "message" =
    (if Py.str_truthy message then Some (JStr message)
     else config s !! "message") /\
  (r = Ret tt ->
   disk s' = Holds (config s') /\
   log s' = log s ++ [EvStatus status progress message; EvOpen config_path;
                      EvDump (config s');
                      EvPrint (status_line status progress message)]) /\
  (dependable -> r = Ret tt).
Proof.
  intros r s'.
  destruct (update_status_cases status progress message s) as [Hc Hcases].
  fold r s' in Hc, Hcases. rewrite Hc.
  destruct (updated_status status progress message (config s)) as (H1 & H2 & H3).
  split; [exact H1|]. split; [exact H2|]. split; [exact H3|]. split.
  - intros Hr. rewrite Hr in Hcases. rewrite <- Hc.
    destruct Hcases as [[[?|[? ?]] _]|[[[?|[? ?]] _]|[[? _]|(_ & Hlog & Hdisk)]]];
      try done.
    split; [exact Hdisk|]. by rewrite Hlog, <- app_assoc.
  - apply update_status_dependable.
Qed.

(** C10. A call of [update_status] leaves every field of the record
    other than [status], [progress] and [message] as it was, in memory
    and, once written, on disk. *)
Theorem update_status_frame (status : string) (progress : Z)
    (message : string) (s : State) (k : string) :
  k <> "status" -> k <> "progress" -> k <> "message" ->
  let r := (update_status status progress message s).1 in
  let s' := (update_status status progress message s).2 in
  config s' !! k = config s !! k /\
  (r = Ret tt ->
   exists record, disk s' = Holds record /\ record !! k = config s !! k) /\
  (dependable -> r = Ret tt).
Proof.
  intros H1 H2 H3 r s'.
  destruct (update_status_cases status progress message s) as [Hc Hcases].
  fold r s' in Hc, Hcases.
  assert (config s' !! k = config s !! k) as Hk
    by (rewrite Hc; by apply updated_frame).
  split; [exact Hk|]. split; [|apply update_status_dependable].
  intros Hr. rewrite Hr in Hcases. exists (config s'). split; [|exact Hk].
  destruct Hcases as [[[?|[? ?]] _]|[[[?|[? ?]] _]|[[? _]|(_ & _ & Hdisk)]]];
    done.
Qed.

(** C4 (amended). [update_status] rewrites [config.json] in place:
    opening it for writing empties it, and the record is then dumped
    into it.  If the process dies during the call, the file still holds
    what it held when the file had not yet been opened, is left torn
    when it had been opened and the dump was not complete, and holds
    the new record when the dump was complete. *)
Theorem update_status_crash (status : string) (progress : Z)
    (message : string) (s : State) :
  (update_status status progress message s).1 = Killed ->
  let s' := (update_status status progress message s).2 in
  let noted := log s ++ [EvStatus status progress message] in
  (log s' = noted /\ disk s' = disk s) \/
  (log s' = noted ++ [EvOpen config_path] /\ disk s' = Torn) \/
  (log s' = noted ++ [EvOpen config_path; EvDump (config s')] /\
   disk s' = Holds (config s')).
Proof.
  intros Hr s' noted.
  destruct (update_status_cases status progress message s) as [_ Hcases].
  fold s' noted in Hcases. rewrite Hr in Hcases.
  destruct Hcases as [(_ & ? & ?)|[(_ & ? & ?)|[(_ & ? & ?)|[? _]]]]; auto.
  done.
Qed.

(** ** Exceptions *)

Lemma process_handler_run (e : Exn) (s : State) :
  let r := (process_handler e s).1 in
  let s' := (process_handler e s).2 in
  let message := "Error inesperado: " +:+ exn_str e in
  (exists evs,
     log s' = log s ++ EvStatus "error" 0 message :: evs /\
     Forall silent evs) /\
  config s' = updated "error" 0 message (config s) /\
  r <> Ret true /\
  (dependable -> r = Ret false /\ disk s' = Holds (config s')).
Proof.
  intros r s' message. subst r s'. unfold process_handler. fold message.
  destruct (update_status_cases "error" 0 message s) as [Hc Hcases].
  destruct (update_status_run "error" 0 message s) as (evs & Hlog & Hh & Hdep).
  pose proof (harmless_silent _ Hh) as Hsil.
  unfold bind, print, effect, ret.
  destruct (update_status "error" 0 message s) as [[[]|e'|] s1];
    simpl in *.
  - destruct (w_kill w (log s1)) eqn:Hkill; simpl.
    + split; [by exists evs|]. split; [done|]. split; [done|].
      intros Hd. destruct Hd as (Hk & _). by rewrite Hk in Hkill.
    + split.
      { exists (evs ++ [EvPrint ("❌ Unexpected error: " +:+ exn_str e)]).
        rewrite Hlog, <- app_assoc. split; [done|].
        apply Forall_app. split; [done | by repeat constructor]. }
      split; [done|]. split; [done|]. intros _. split; [done|].
      destruct Hcases as [[[?|[? ?]] _]|[[[?|[? ?]] _]|[[? _]|(_ & _ & Hd)]]];
        try done.
  - split; [by exists evs|]. split; [done|]. split; [done|].
    intros Hd. by specialize (Hdep Hd).
  - split; [by exists evs|]. split; [done|]. split; [done|].
    intros Hd. by specialize (Hdep Hd).
Qed.

(** What [main] does once the directory is found: with a record
    loaded it runs [process]; without one it ends with an exception and
    has touched nothing. *)
Lemma main_after_init (s : State) (c : gmap string Json) :
  w_exists w project_dir = true -> w_kill w (log s) = false ->
  record_of (disk s) = Some c ->
  main s =
    bind process (fun success => ret (if success : bool then 0 else 1))
      (set_config c s).
Proof.
  intros Hdir Hkill Hdisk. unfold main.
  rewrite (run_os_path_exists _ _ _ Hkill), Hdir. cbn [negb].
  unfold bind at 1. unfold init, effect. rewrite Hkill.
  destruct (disk s) as [|record|doc|]; try discriminate Hdisk.
  by injection Hdisk as ->.
Qed.

Lemma main_stranded (s : State) (e : Exn) :
  w_exists w project_dir = true -> w_kill w (log s) = false ->
  stranded (disk s) = Some e ->
  main s = (Raise e, s).
Proof.
  intros Hdir Hkill Hdisk. unfold main.
  rewrite (run_os_path_exists _ _ _ Hkill), Hdir. cbn [negb].
  unfold bind at 1. unfold init, effect. rewrite Hkill.
  destruct (disk s) as [|record|doc|]; try discriminate Hdisk;
    by injection Hdisk as <-.
Qed.

Lemma record_or_stranded (f : File) :
  (exists c, record_of f = Some c /\ stranded f = None) \/
  (exists e, record_of f = None /\ stranded f = Some e).
Proof.
  destruct f as [|record|doc|]; simpl; eauto.
Qed.

(** C7 (amended). Once [config.json] has been loaded as an object, an
    exception raised in the body of [process], that is by any stage, is
    caught by [process] and turned into the update [error], 0,
    [Error inesperado: ...] before [main] ends; [main] then does not
    exit with 0, and exits with 1 when storage and process are
    dependable.  Without such a record, the file being missing, not
    JSON, or a JSON document that is not an object, the exception is
    not caught: [main] ends with it and has made no status update nor
    touched anything else. *)
Theorem exception_in_process_recorded (s : State) :
  w_exists w project_dir = true -> w_kill w (log s) = false ->
  (forall c s1 e,
     record_of (disk s) = Some c ->
     process_body (set_config c s) = (Raise e, s1) ->
     let r := (main s).1 in
     let s' := (main s).2 in
     let message := "Error inesperado: " +:+ exn_str e in
     (exists evs,
        log s' = log s1 ++ EvStatus "error" 0 message :: evs /\
        Forall silent evs) /\
     config s' !! "status" = Some (JStr "error") /\
     config s' !! "progress" = Some (JInt 0) /\
     config s' !! "message" = Some (JStr message) /\
     r <> Ret 0 /\
     (dependable -> r = Ret 1 /\ disk s' = Holds (config s'))) /\
  (record_of (disk s) = None ->
   exists e, stranded (disk s) = Some e /\ main s = (Raise e, s)).
Proof.
  intros Hdir Hkill. split.
  - intros c s1 e Hdisk Hbody r s' message. subst r s'.
    rewrite (main_after_init s c Hdir Hkill Hdisk).
    unfold bind, process, try_except. rewrite Hbody. cbn [any_exception].
    destruct (process_handler_run e s1) as (Hlog & Hc & Hr & Hdep).
    fold message in Hlog, Hc, Hdep.
    destruct (updated_status "error" 0 message (config s1))
      as (H1 & H2 & H3).
    destruct (process_handler e s1) as [[[|]|e'|] s2]; simpl in *;
      (split; [exact Hlog|]); rewrite Hc;
      (split; [exact H1|]); (split; [exact H2|]); (split; [exact H3|]);
      (split; [done|]);
      intros Hd; destruct (Hdep Hd) as [Hr' Hdk]; rewrite <- Hc; by split.
  - intros Hnone.
    destruct (record_or_stranded (disk s)) as [(c & Hc & _)|(e & _ & He)];
      [by rewrite Hc in Hnone|].
    exists e. split; [exact He|]. by apply main_stranded.
Qed.

(** *** Nothing is transformed before the verdict *)




(** *** The verdict of the validation stage *)











(** ** The fade-out stage, where it does fall back *)

Lemma add_fade_out_probe_failed (video_path : string) (s : State)
    (returncode : Z) (stdout : string) :
  (forall l, w_kill w l = false) ->
  w_run w (log s ++ [EvPrint "🌅 Adding fade-out..."]) (probe_cmd video_path) =
    NonZero returncode stdout ->
  (add_fade_out video_path s).1 = Ret video_path.
Proof.
  intros Hkill Hrun. unfold add_fade_out.
  rewrite (run_print _ _ _ (Hkill _)).
  unfold bind, try_except, subprocess_run, print, effect, ret. simpl.
  rewrite !Hkill, Hrun. simpl. by rewrite Hkill.
Qed.

Lemma add_fade_out_fade_failed (video_path : string) (s : State)
    (stdout : string) (duration : spec_float) (returncode : Z)
    (stdout' : string) :
  (forall l, w_kill w l = false) ->
  w_run w (log s ++ [EvPrint "🌅 Adding fade-out..."]) (probe_cmd video_path) =
    Completed stdout ->
  py_float w (Py.strip stdout) = Some duration ->
  (forall l,
     w_run w l
       (fade_cmd video_path (Py.fsub duration Py.one_and_a_half)
          (Py.path_join output_dir "final_video.mp4")) =
     NonZero returncode stdout') ->
  (add_fade_out video_path s).1 = Ret video_path.
Proof.
  intros Hkill Hprobe Hfloat Hfade. unfold add_fade_out.
  rewrite (run_print _ _ _ (Hkill _)).
  unfold bind, try_except, subprocess_run, float_of_text, print, effect, ret.
  simpl. rewrite !Hkill, Hprobe. simpl. rewrite Hfloat. simpl.
  rewrite !Hkill, Hfade. simpl. by rewrite Hkill.
Qed.

(** An output of [ffprobe] that [float] rejects is not handled. *)
Lemma add_fade_out_unparsable (video_path : string) (s : State)
    (stdout : string) :
  (forall l, w_kill w l = false) ->
  w_run w (log s ++ [EvPrint "🌅 Adding fade-out..."]) (probe_cmd video_path) =
    Completed stdout ->
  py_float w (Py.strip stdout) = None ->
  (add_fade_out video_path s).1 =
    Raise (mkExn ValueError
             ("could not convert string to float: '" +:+ Py.strip stdout
              +:+ "'")).
Proof.
  intros Hkill Hprobe Hfloat. unfold add_fade_out.
  rewrite (run_print _ _ _ (Hkill _)).
  unfold bind, try_except, subprocess_run, float_of_text, raise, print, effect,
    ret.
  simpl. rewrite !Hkill, Hprobe. simpl. by rewrite Hfloat.
Qed.

(** ** The audio stage, case by case *)

Lemma prints_app (l1 l2 : list Event) :
  prints (l1 ++ l2) = prints l1 ++ prints l2.
Proof. apply omap_app. Qed.

(** A call of [update_status] when nothing fails. *)
Lemma update_status_ok (status : string) (progress : Z) (message : string)
    (s : State) :
  dependable ->
  update_status status progress message s =
    (Ret tt,
     mkState (updated status progress message (config s))
       (Holds (updated status progress message (config s)))
       (log s ++
        [EvStatus status progress message; EvOpen config_path;
         EvDump (updated status progress message (config s));
         EvPrint (status_line status progress message)])).
Proof.
  intros Hd.
  pose proof (update_status_dependable status progress message s Hd) as Hr.
  destruct (update_status_cases status progress message s) as [Hc Hcases].
  rewrite Hr in Hcases.
  destruct Hcases as [[[?|[? ?]] _]|[[[?|[? ?]] _]|[[? _]|(_ & Hlog & Hdisk)]]];
    try done.
  destruct (update_status status progress message s) as [r [c d l]].
  simpl in *. subst. by rewrite <- app_assoc.
Qed.

Lemma subprocess_run_completed {B} (argv : list string) (stdout : string)
    (k : string -> M B) (s : State) :
  w_kill w (log s) = false -> w_run w (log s) argv = Completed stdout ->
  bind (subprocess_run argv true) k s = k stdout (emit (EvExec argv) s).
Proof.
  intros Hkill Hrun. unfold bind, subprocess_run, effect.
  by rewrite Hkill, Hrun.
Qed.

(** A selected soundtrack whose file is absent is passed over without
    a word: only the narration is prepared, and nothing but the banner
    and the status line is printed. *)
Lemma prepare_audio_missing_soundtrack (s : State) (audio narration : Json)
    (nf stdout : string) (selected : Json) :
  dependable ->
  config s !! "audio" = Some audio ->
  Py.subscript audio "narration" = Ret narration ->
  Py.subscript narration "filename" = Ret (JStr nf) ->
  (forall l,
     w_run w l
       (pcm_cmd (Py.path_join audio_dir nf)
          (Py.path_join output_dir "narration.wav")) = Completed stdout) ->
  config s !! "selectedSoundtrack" = Some selected ->
  Py.truthy selected = true ->
  not_found (Py.path_str ("public/sounds/" +:+ fmt selected +:+ ".mp3")) ->
  (prepare_audio s).1 =
    Ret {[ "narration" := Py.path_join output_dir "narration.wav" ]} /\
  prints (log (prepare_audio s).2) =
    prints (log s) ++
    ["🎵 Preparing audio...";
     status_line "processing" 35 "Audio de narración procesado"].
Proof.
  intros Hd Ha Hn Hnf Hrun Hsel Htruthy [Hstat Hmissing].
  pose proof Hd as (Hkill & _ & _).
  assert (exists s',
            prepare_audio s =
              (Ret {[ "narration" := Py.path_join output_dir "narration.wav" ]},
               s') /\
            prints (log s') =
              prints (log s) ++
              ["🎵 Preparing audio...";
               status_line "processing" 35 "Audio de narración procesado"])
    as (s' & Hs' & Hprints); [|by rewrite Hs'].
  eexists. split.
  - unfold prepare_audio. rewrite (run_print _ _ _ (Hkill _)).
    set (s1 := emit (EvPrint "🎵 Preparing audio...") s).
    assert (config s1 !! "audio" = Some audio) as Ha1 by exact Ha.
    unfold narration_filename. run_known. simpl Py.path_operand. run_known.
    unfold bind at 1. unfold try_except at 1.
    rewrite (subprocess_run_completed _ _ _ _ (Hkill _) (Hrun _)).
    unfold bind at 1. rewrite (update_status_ok _ _ _ _ Hd). cbv [ret].
    unfold bind at 1. unfold config_get at 1. cbn [config].
    rewrite updated_frame by done. cbn [config s1 emit]. rewrite Hsel.
    cbn [Py.truthy_opt]. rewrite Htruthy.
    unfold bind at 1. unfold get_item at 1. cbn [config].
    rewrite updated_frame by done. cbn [config s1 emit]. rewrite Hsel.
    rewrite (run_path_exists _ _ _ (Hkill _) Hstat), Hmissing.
    reflexivity.
  - cbn [log emit]. rewrite <- !app_assoc, !prints_app. reflexivity.
Qed.

(** A narration that cannot be converted ends the stage with the empty
    result, which [process] takes for failure, and with [error]
    recorded. *)
Lemma prepare_audio_narration_failed (s : State) (audio narration : Json)
    (nf stdout : string) (returncode : Z) :
  dependable ->
  config s !! "audio" = Some audio ->
  Py.subscript audio "narration" = Ret narration ->
  Py.subscript narration "filename" = Ret (JStr nf) ->
  (forall l,
     w_run w l
       (pcm_cmd (Py.path_join audio_dir nf)
          (Py.path_join output_dir "narration.wav")) =
     NonZero returncode stdout) ->
  (prepare_audio s).1 = Ret ∅ /\
  is_empty_dict ∅ = true /\
  updates (log (prepare_audio s).2) =
    updates (log s) ++
    [mkUpdate "error" 0
       ("Error procesando audio: " +:+
        py_str_cpe w
          (pcm_cmd (Py.path_join audio_dir nf)
             (Py.path_join output_dir "narration.wav")) returncode)].
Proof.
  intros Hd Ha Hn Hnf Hrun.
  pose proof Hd as (Hkill & _ & _).
  set (cmd := pcm_cmd (Py.path_join audio_dir nf)
                (Py.path_join output_dir "narration.wav")) in *.
  set (message := "Error procesando audio: " +:+ py_str_cpe w cmd returncode).
  assert (exists s',
            prepare_audio s = (Ret ∅, s') /\
            updates (log s') =
              updates (log s) ++ [mkUpdate "error" 0 message])
    as (s' & Hs' & Hupdates); [|by rewrite Hs'].
  eexists. split.
  - unfold prepare_audio. rewrite (run_print _ _ _ (Hkill _)).
    set (s1 := emit (EvPrint "🎵 Preparing audio...") s).
    assert (config s1 !! "audio" = Some audio) as Ha1 by exact Ha.
    unfold narration_filename. run_known. simpl Py.path_operand. run_known.
    fold cmd.
    unfold bind at 1. unfold try_except at 1.
    unfold bind at 1. unfold subprocess_run at 1, effect.
    rewrite Hkill, Hrun. cbn [exn_class only_called_process_error exn_str].
    fold message.
    unfold bind at 1. rewrite (update_status_ok _ _ _ _ Hd). cbv [ret].
    reflexivity.
  - cbn [log emit]. rewrite <- !app_assoc, !updates_app. reflexivity.
Qed.

(** ** What the worker leaves alone *)

Lemma touches_of_keeps {A} (m : M A) :
  keeps_config m -> touches_assigned_only m.
Proof. intros H s k _. by rewrite H. Qed.

Lemma touches_bind {A B} (m : M A) (f : A -> M B) :
  touches_assigned_only m -> (forall a, touches_assigned_only (f a)) ->
  touches_assigned_only (bind m f).
Proof.
  intros Hm Hf s k Hk. unfold bind. specialize (Hm s k Hk).
  destruct (m s) as [[a|e|] s1]; simpl in *; try done.
  by rewrite (Hf a s1 k Hk).
Qed.

Lemma touches_try {A} (body : M A) (catches : ExnClass -> bool)
    (handler : Exn -> M A) :
  touches_assigned_only body -> (forall e, touches_assigned_only (handler e)) ->
  touches_assigned_only (try_except body catches handler).
Proof.
  intros Hm Hh s k Hk. unfold try_except. specialize (Hm s k Hk).
  destruct (body s) as [[a|e|] s1]; simpl in *; try done.
  destruct (catches (exn_class e)); [|done]. by rewrite (Hh e s1 k Hk).
Qed.

Lemma touches_set_item (k : string) (v : Json) :
  assigned_key k -> touches_assigned_only (set_item k v).
Proof.
  intros Hk s k' Hk'. unfold set_item. simpl.
  apply lookup_insert_ne. intros ->. by apply Hk'.
Qed.

Lemma touches_update_status (status : string) (progress : Z)
    (message : string) :
  touches_assigned_only (update_status status progress message).
Proof.
  intros s k Hk.
  destruct (update_status_view status progress message s) as [-> _].
  apply updated_frame; intros ->; apply Hk; unfold assigned_key; auto.
Qed.

Ltac touches_step :=
  first
    [ apply touches_update_status
    | apply touches_set_item; unfold assigned_key; by auto 6
    | solve [apply touches_of_keeps; repeat keeps_step]
    | apply touches_bind; [|intros ?]
    | apply touches_try; [|intros ?]
    | match goal with
      | |- touches_assigned_only (if ?b then _ else _) => destruct b
      | |- touches_assigned_only (match ?x with _ => _ end) => destruct x
      | |- touches_assigned_only (let '(_, _) := ?x in _) => destruct x
      | |- touches_assigned_only (float_of_text _) => unfold float_of_text
      | |- touches_assigned_only (let _ := _ in _) => cbv zeta
      end ].

Lemma touches_validate_images (imgs : list Json) :
  touches_assigned_only (validate_images imgs).
Proof.
  induction imgs as [|img rest IH]; simpl; [repeat touches_step|].
  apply touches_bind; [repeat touches_step | intros filename].
  apply touches_bind; [repeat touches_step | intros operand].
  apply touches_bind; [repeat touches_step | intros present].
  destruct (negb present); [repeat touches_step | exact IH].
Qed.

Lemma touches_prepare_images_loop (processed_dir : string)
    (items : list Json) :
  forall (i : nat) (image_paths : list string),
  touches_assigned_only
    (prepare_images_loop processed_dir i items image_paths).
Proof.
  induction items as [|img rest IH]; intros i image_paths; simpl;
    [repeat touches_step|].
  apply touches_bind; [repeat touches_step | intros filename].
  apply touches_bind; [repeat touches_step | intros operand].
  apply touches_bind; [repeat touches_step|].
  intros [paths|]; [apply IH | repeat touches_step].
Qed.

Lemma touches_process : touches_assigned_only process.
Proof.
  unfold process, process_body, process_handler.
  repeat first [ apply touches_validate_images
               | apply touches_prepare_images_loop
               | touches_step ].
Qed.

(** ** Memory and disk in step *)

Section Inert.

Context {A B : Type}.

Lemma inert_ret (a : A) : inert (ret a).
Proof. done. Qed.

Lemma inert_lift (r : Res A) : inert (lift r).
Proof. done. Qed.

Lemma inert_raise (c : ExnClass) (text : string) : inert (raise c text : M A).
Proof. done. Qed.

Lemma inert_bind (m : M A) (f : A -> M B) :
  inert m -> (forall a, inert (f a)) -> inert (bind m f).
Proof.
  intros Hm Hf s. unfold bind. destruct (Hm s) as [Hc Hd].
  destruct (m s) as [[a|e|] s1]; simpl in *; try done.
  destruct (Hf a s1) as [Hc' Hd']. by rewrite Hc', Hd'.
Qed.

Lemma inert_try (body : M A) (catches : ExnClass -> bool)
    (handler : Exn -> M A) :
  inert body -> (forall e, inert (handler e)) ->
  inert (try_except body catches handler).
Proof.
  intros Hm Hh s. unfold try_except. destruct (Hm s) as [Hc Hd].
  destruct (body s) as [[a|e|] s1]; simpl in *; try done.
  destruct (catches (exn_class e)); [|done].
  destruct (Hh e s1) as [Hc' Hd']. by rewrite Hc', Hd'.
Qed.

End Inert.

Ltac inert_primitive :=
  let s := fresh "s" in
  intros s; unfold effect; destruct (w_kill w (log s)); [done|];
  repeat case_match; done.

Lemma inert_print (line : string) : inert (print line).
Proof. unfold print. inert_primitive. Qed.

Lemma inert_path_exists (p : string) : inert (path_exists p).
Proof. unfold path_exists. inert_primitive. Qed.

Lemma inert_subprocess_run (argv : list string) (check : bool) :
  inert (subprocess_run argv check).
Proof. unfold subprocess_run. inert_primitive. Qed.

Lemma inert_open_w (path : string) : inert (open_w path).
Proof. unfold open_w. inert_primitive. Qed.

Lemma inert_write_text (path text : string) : inert (write_text path text).
Proof. unfold write_text. inert_primitive. Qed.

Lemma inert_mkdir (path : string) : inert (mkdir path).
Proof. unfold mkdir. inert_primitive. Qed.

Lemma inert_get_item (k : string) : inert (get_item k).
Proof. intros s. unfold get_item. by destruct (config s !! k). Qed.

Lemma inert_config_get (k : string) : inert (config_get k).
Proof. done. Qed.

Ltac inert_step :=
  first
    [ apply inert_ret | apply inert_lift | apply inert_raise
    | apply inert_path_exists | apply inert_get_item | apply inert_config_get
    | apply inert_print | apply inert_subprocess_run | apply inert_open_w
    | apply inert_write_text | apply inert_mkdir
    | apply inert_bind; [|intros ?]
    | apply inert_try; [|intros ?]
    | match goal with
      | |- inert (if ?b then _ else _) => destruct b
      | |- inert (match ?x with _ => _ end) => destruct x
      | |- inert (let '(_, _) := ?x in _) => destruct x
      | |- inert (float_of_text _) => unfold float_of_text
      | |- inert (let _ := _ in _) => cbv zeta
      end ].

Lemma keeps_synced_inert {A} (m : M A) : inert m -> keeps_synced m.
Proof.
  intros Hm s Hs. destruct (Hm s) as [Hc Hd]. unfold synced in *.
  destruct (m s) as [[a|e|] s1]; simpl in *; try done; by rewrite Hc, Hd.
Qed.

Lemma keeps_synced_bind {A B} (m : M A) (f : A -> M B) :
  keeps_synced m -> (forall a, keeps_synced (f a)) -> keeps_synced (bind m f).
Proof.
  intros Hm Hf s Hs. unfold bind. specialize (Hm s Hs).
  destruct (m s) as [[a|e|] s1]; try done. by apply Hf.
Qed.

Lemma keeps_synced_try {A} (body : M A) (handler : Exn -> M A) :
  keeps_synced body -> (forall e, keeps_synced (handler e)) ->
  keeps_synced (try_except body only_called_process_error handler).
Proof.
  intros Hm Hh s Hs. unfold try_except. specialize (Hm s Hs).
  destruct (body s) as [[a|e|] s1]; try done.
  destruct (exn_class e) eqn:Hclass; simpl;
    try (intros Hcpe; rewrite Hclass in Hcpe; discriminate Hcpe).
  by apply Hh, Hm.
Qed.

Lemma keeps_synced_update_status (status : string) (progress : Z)
    (message : string) :
  keeps_synced (update_status status progress message).
Proof.
  intros s _.
  destruct (update_status_cases status progress message s) as [_ Hcases].
  destruct (update_status status progress message s) as [[[]|e|] s1];
    simpl in *; try done.
  - by destruct Hcases
      as [[[?|[? ?]] _]|[[[?|[? ?]] _]|[[? _]|(_ & _ & ?)]]].
  - intros Hclass.
    destruct Hcases
      as [[[?|[? [= ->]]] _]|[[[?|[? [= ->]]] _]|[[? _]|[? _]]]]; done.
Qed.

Lemma keeps_synced_completion (final : string) :
  keeps_synced (completion final).
Proof.
  intros s _. unfold completion.
  cbv [bind set_item note_status ret subprocess_run open_config_w
       json_dump_config print effect].
  simpl.
  repeat (case_match; simpl in *; simplify_eq; try done).
Qed.

Ltac synced_step :=
  first
    [ apply keeps_synced_update_status
    | apply keeps_synced_completion
    | solve [apply keeps_synced_inert; repeat inert_step]
    | apply keeps_synced_bind; [|intros ?]
    | apply keeps_synced_try; [|intros ?]
    | match goal with
      | |- keeps_synced (if ?b then _ else _) => destruct b
      | |- keeps_synced (match ?x with _ => _ end) => destruct x
      | |- keeps_synced (let '(_, _) := ?x in _) => destruct x
      | |- keeps_synced (let _ := _ in _) => cbv zeta
      end ].

Lemma keeps_synced_validate_images (imgs : list Json) :
  keeps_synced (validate_images imgs).
Proof.
  induction imgs as [|img rest IH]; simpl; [repeat synced_step|].
  apply keeps_synced_bind; [repeat synced_step | intros filename].
  apply keeps_synced_bind; [repeat synced_step | intros operand].
  apply keeps_synced_bind; [repeat synced_step | intros present].
  destruct (negb present); [repeat synced_step | exact IH].
Qed.

Lemma keeps_synced_prepare_images_loop (processed_dir : string)
    (items : list Json) :
  forall (i : nat) (image_paths : list string),
  keeps_synced (prepare_images_loop processed_dir i items image_paths).
Proof.
  induction items as [|img rest IH]; intros i image_paths; simpl;
    [repeat synced_step|].
  apply keeps_synced_bind; [repeat synced_step | intros filename].
  apply keeps_synced_bind; [repeat synced_step | intros operand].
  apply keeps_synced_bind; [repeat synced_step|].
  intros [paths|]; [apply IH | repeat synced_step].
Qed.

(** [process_body] ends with [completion]. *)
Lemma keeps_synced_process_body : keeps_synced process_body.
Proof.
  unfold process_body.
  repeat first [ apply keeps_synced_validate_images
               | apply keeps_synced_prepare_images_loop
               | synced_step ].
Qed.

(** However [process] returns, the file then holds the record. *)
Lemma process_synced (s s' : State) (b : bool) :
  synced s -> process s = (Ret b, s') -> synced s'.
Proof.
  intros Hs Hrun. unfold process, try_except in Hrun.
  pose proof (keeps_synced_process_body s Hs) as Hbody.
  destruct (process_body s) as [[b0|e|] s1]; try done.
  - by injection Hrun as <- <-.
  - cbn [any_exception] in Hrun. unfold process_handler in Hrun.
    apply bind_ret_inv in Hrun as ([] & s2 & Hupd & Hrun).
    pose proof (keeps_synced_update_status "error" 0
                  ("Error inesperado: " +:+ exn_str e) s1) as Hu.
    apply bind_ret_inv in Hrun as ([] & s3 & Hprint & Hrun).
    injection Hrun as <- <-.
    destruct (inert_print ("❌ Unexpected error: " +:+ exn_str e) s2)
      as [Hc Hd].
    rewrite Hprint in Hc, Hd. simpl in Hc, Hd. unfold synced.
    rewrite Hc, Hd.
    destruct (update_status_cases "error" 0
                ("Error inesperado: " +:+ exn_str e) s1) as [_ Hcases].
    rewrite Hupd in Hcases. simpl in Hcases.
    by destruct Hcases
      as [[[?|[? ?]] _]|[[[?|[? ?]] _]|[[? _]|(_ & _ & ?)]]].
Qed.

(** ** The record at the end of a run *)

Lemma known_since_start (s : State) :
  known_since (updates (log s)) (config s) (updates (log s)).
Proof. exists []. split; [by rewrite app_nil_r | constructor]. Qed.

Lemma known_since_snoc (tr0 : list Update) (u : Update) c c' full :
  known_since tr0 c full -> known u -> known_since tr0 c' (full ++ [u]).
Proof.
  intros (tr & -> & Hk) Hu. exists (tr ++ [u]).
  split; [by rewrite app_assoc|]. apply Forall_app. by split; [|constructor].
Qed.

Lemma known_processing (progress : Z) (message : string) :
  10 <= progress <= 95 -> message <> "" ->
  known (mkUpdate "processing" progress message).
Proof. intros Hp Hm. left. split; [reflexivity|]. split; [exact Hp | exact Hm]. Qed.

Lemma known_error (message : string) :
  message <> "" -> known (mkUpdate "error" 0 message).
Proof.
  intros Hm. right. left. split; [reflexivity|]. split; [reflexivity | exact Hm].
Qed.

Lemma failed_updated (message : string) (c : gmap string Json) :
  failed (updated "error" 0 message c).
Proof.
  destruct (updated_status "error" 0 message c) as (H1 & H2 & _). by split.
Qed.

Lemma message_updated (status : string) (progress : Z) (message : string)
    (c : gmap string Json) :
  message <> "" ->
  updated status progress message c !! "message" = Some (JStr message).
Proof.
  intros Hm. destruct (updated_status status progress message c)
    as (_ & _ & H). rewrite H. by destruct message.
Qed.

Lemma artifact_nonempty (name : string) :
  is_empty_str (Py.path_join output_dir name) = false.
Proof. unfold is_empty_str, Py.path_join. by rewrite path_str_truthy. Qed.

Lemma hoare_seq_set_item {B} (P P' : Assertion) (Q : B -> Assertion)
    (E : Assertion) (k : string) (v : Json) (f : unit -> M B) :
  (forall c tr, P c tr -> P' (<[k := v]> c) tr) ->
  hoare P' (f tt) Q E ->
  hoare P (bind (set_item k v) f) Q E.
Proof.
  intros HP Hf s Hs. unfold bind, set_item. apply Hf. simpl. by apply HP.
Qed.

(** Steps of a proof about the record: a step without update, an
    update that is [known], the rest of a failing path. *)
Ltac kfail :=
  let H := fresh "H" in
  intros ? ? H; drop_frame H; exact H.

Ltac nonempty_message :=
  simpl; let H := fresh "H" in intros H; discriminate H.

Ltac kquiet := apply hoare_seq_quiet; [quietness | kfail | intros ?].

Tactic Notation "kquiet" "as" ident(x) :=
  apply hoare_seq_quiet; [quietness | kfail | intros x].

Ltac kprocessing tr0 :=
  apply (hoare_seq_update _ (known_since tr0));
  [ let H := fresh "H" in
    intros ? ? H; drop_frame H;
    eapply known_since_snoc;
    [exact H | apply known_processing; [lia | nonempty_message]]
  | kfail | ].

Ltac kerror tr0 :=
  apply (hoare_seq_update _
           (fun c full => known_since tr0 c full /\ failed c));
  [ let H := fresh "H" in
    intros ? ? H; drop_frame H; split;
    [ eapply known_since_snoc;
      [exact H | apply known_error; nonempty_message]
    | apply failed_updated ]
  | kfail | ].

Lemma validate_images_rec (tr0 : list Update) (C : gmap string Json -> Prop)
    (imgs : list Json) :
  hoare (fun c full => known_since tr0 c full /\ C c) (validate_images imgs)
    (fun ok c full =>
       known_since tr0 c full /\ if ok then C c else failed c)
    (known_since tr0).
Proof.
  induction imgs as [|img rest IH]; simpl.
  - by apply hoare_ret.
  - kquiet. kquiet. kquiet as present. destruct present; simpl; [exact IH|].
    kquiet. kerror tr0. by apply hoare_ret.
Qed.

Lemma validate_files_rec (tr0 : list Update) :
  hoare (known_since tr0) validate_files
    (fun ok c full =>
       known_since tr0 c full /\ if ok then thirty_images c else failed c)
    (known_since tr0).
Proof.
  unfold validate_files. kquiet.
  apply hoare_seq_get_item; [kfail|]. intros images.
  apply hoare_seq_lift; [kfail|]. intros n Hn.
  destruct (Nat.eqb_spec n 30) as [->|Hne]; simpl.
  - kquiet. kquiet.
    eapply hoare_seq_stage;
      [apply (validate_images_rec tr0
                (fun c => c !! "images" = Some images)) | auto |].
    intros [|]; simpl; [|by apply hoare_ret].
    kquiet. kquiet. kquiet as present. destruct present; simpl.
    + apply (hoare_seq_update _
               (fun c full => known_since tr0 c full /\ thirty_images c)).
      * intros c tr [H Himg]. split.
        -- eapply known_since_snoc;
             [exact H | apply known_processing; [lia | nonempty_message]].
        -- apply thirty_images_updated. by exists images.
      * kfail.
      * by apply hoare_ret.
    + kquiet. kerror tr0. by apply hoare_ret.
  - kquiet. kquiet. kerror tr0. by apply hoare_ret.
Qed.

Lemma prepare_images_loop_rec (tr0 : list Update) (processed_dir : string)
    (items : list Json) :
  forall (i : nat) (image_paths : list string),
  (i + length items = 30)%nat ->
  hoare (fun c full => known_since tr0 c full /\ thirty_images c)
    (prepare_images_loop processed_dir i items image_paths)
    (fun r c full =>
       known_since tr0 c full /\
       (r = [] -> failed c \/ (items = [] /\ image_paths = [])))
    (known_since tr0).
Proof.
  induction items as [|img_config rest IH]; intros i image_paths Hlen;
    simpl in *.
  - apply hoare_ret. intros c tr [H _]. split; [exact H|]. auto.
  - pose proof (progress_floor_bounds (S i)).
    kquiet. kquiet.
    eapply (hoare_bind _
              (fun r c full =>
                 known_since tr0 c full /\
                 match r with
                 | Some paths => thirty_images c /\ paths <> []
                 | None => failed c
                 end)).
    + apply (hoare_try _ _ _ (known_since tr0)); [| |auto].
      * kquiet.
        apply hoare_seq_image_progress; [lia | by intros c tr [_ ?] |].
        apply (hoare_seq_update _
                 (fun c full => known_since tr0 c full /\ thirty_images c)).
        -- intros c tr [Hs Himg]. split.
           ++ eapply known_since_snoc;
                [exact Hs | apply known_processing; [lia | nonempty_message]].
           ++ by apply thirty_images_updated.
        -- kfail.
        -- apply hoare_ret. intros c tr [? ?]. repeat split; try done.
           by destruct image_paths.
      * intros e. kerror tr0. by apply hoare_ret.
    + intros [paths|].
      * apply (hoare_pure _ _ _ _ (paths <> [])); [by intros c tr (_ & _ & ?)|].
        intros Hne. eapply hoare_conseq;
          [apply (IH (S i) paths); lia | by intros c tr (? & ? & _) | | auto].
        intros r c tr [Hk Hr]. split; [exact Hk|].
        intros ->. destruct (Hr eq_refl) as [?|[_ ?]]; [by left | done].
      * apply hoare_ret. intros c tr [? ?]. split; [done|]. by left.
Qed.

Lemma prepare_images_rec (tr0 : list Update) :
  hoare (fun c full => known_since tr0 c full /\ thirty_images c)
    prepare_images
    (fun r c full => known_since tr0 c full /\ (r = [] -> failed c))
    (known_since tr0).
Proof.
  unfold prepare_images. kquiet. kquiet.
  apply hoare_seq_get_item; [kfail|]. intros images.
  apply hoare_seq_lift; [kfail|]. intros items Hitems.
  apply (hoare_pure _ _ _ _ (length items = 30%nat)).
  - intros c tr [[_ (v & Hv & Hlen)] Himages].
    rewrite Hv in Himages. injection Himages as ->.
    by apply (len_iter images).
  - intros Hlen. eapply hoare_conseq;
      [apply (prepare_images_loop_rec tr0 _ items 0%nat []); by rewrite Hlen
      | by intros c tr [H _] | | auto].
    intros r c tr [Hk Hr]. split; [exact Hk|]. intros ->.
    destruct (Hr eq_refl) as [?|[-> _]]; [done | discriminate Hlen].
Qed.

(** *** Stages that may be skipped *)

Lemma steady_refl (s : State) : steady s s.
Proof. by split. Qed.

Lemma steady_trans (s s1 s2 : State) :
  steady s s1 -> steady s1 s2 -> steady s s2.
Proof. intros [H1 H2] [H3 H4]. split; congruence. Qed.

Lemma steady_advanced (progress : Z) (message : string) (s s1 s2 : State) :
  steady s s1 -> advanced progress message s1 s2 ->
  advanced progress message s s2.
Proof. intros [H1 H2] [H3 H4]. split; congruence. Qed.

Lemma quiet_steady {A} (m : M A) (s : State) : quiet m -> steady s (m s).2.
Proof.
  intros [Hm Hc]. split; [apply Hc|].
  destruct (Hm s) as (evs & -> & Hevs).
  by rewrite updates_app, (updates_silent evs Hevs), app_nil_r.
Qed.

Lemma optional_ret {A} (v out : A) (progress : Z) (message : string) :
  optional v out progress message (ret v).
Proof. intros s. simpl. left. split; [done | apply steady_refl]. Qed.

Lemma optional_bind {A B} (v out : B) (progress : Z) (message : string)
    (m : M A) (f : A -> M B) :
  quiet m -> (forall a, optional v out progress message (f a)) ->
  optional v out progress message (bind m f).
Proof.
  intros Hm Hf s. unfold bind.
  pose proof (quiet_steady m s Hm) as Hs.
  destruct (m s) as [[a|e|] s1]; simpl in Hs; [|by left..].
  specialize (Hf a s1).
  destruct (f a s1) as [[b|e|] s2].
  - destruct Hf as [[-> H]|[-> H]]; [left | right]; split; try done.
    + by apply (steady_trans s s1).
    + by apply (steady_advanced _ _ s s1).
  - destruct Hf as [H|[Hc H]]; [left | right; split; [done|]].
    + by apply (steady_trans s s1).
    + by apply (steady_advanced _ _ s s1).
  - destruct Hf as [H|H]; [left | right].
    + by apply (steady_trans s s1).
    + by apply (steady_advanced _ _ s s1).
Qed.

Lemma bind_run {A B} (m : M A) (f : A -> M B) (s : State) :
  bind m f s =
    match m s with
    | (Ret a, s') => f a s'
    | (Raise e, s') => (Raise e, s')
    | (Killed, s') => (Killed, s')
    end.
Proof. reflexivity. Qed.

(** The step common to the stages: a command, then the update, with a
    failure of the command turned into a warning. *)
Lemma optional_guarded {A} (v out : A) (progress : Z) (message : string)
    (argv : list string) (warning : Exn -> string) :
  optional v out progress message
    (try_except
       (subprocess_run argv true ;;
        update_status "processing" progress message ;;
        ret out)
       only_called_process_error
       (fun e => print (warning e) ;; ret v)).
Proof.
  intros s. unfold try_except.
  rewrite (bind_run (subprocess_run argv true)).
  assert (quiet (subprocess_run argv true)) as Hq by quietness.
  pose proof (quiet_steady _ s Hq) as Hs.
  destruct (subprocess_run argv true s) as [[stdout|e|] s1]; simpl in Hs.
  - rewrite (bind_run (update_status "processing" progress message)).
    unfold ret.
    destruct (update_status_view "processing" progress message s1)
      as [Hc Hu].
    destruct (update_status_cases "processing" progress message s1)
      as (_ & Hcases).
    assert (advanced progress message s
              (update_status "processing" progress message s1).2) as Hadv.
    { apply (steady_advanced _ _ s s1); [exact Hs | by split]. }
    destruct (update_status "processing" progress message s1)
      as [[[]|e|] s2]; simpl in *.
    + right. by split.
    + assert (exn_class e = OSError) as Hclass.
      { destruct Hcases as [[[H|[text H]] _]|[[[H|[text H]] _]|[[H _]|[H _]]]];
          try discriminate H; by injection H as ->. }
      rewrite Hclass. simpl. right. split; [by rewrite Hclass | exact Hadv].
    + by right.
  - destruct (only_called_process_error (exn_class e)); [|by left].
    assert (quiet (print (warning e) ;; ret v)) as Hh by quietness.
    pose proof (quiet_steady _ s1 Hh) as Hs1.
    assert (forall r s2, (print (warning e) ;; ret v) s1 = (Ret r, s2) -> r = v)
      as Hv.
    { intros r s2. unfold bind, print, effect.
      destruct (w_kill w (log s1)); [done | by intros [= <- _]]. }
    destruct ((print (warning e) ;; ret v) s1) as [[r|e'|] s2] eqn:Hrun;
      simpl in Hs1; left; try by apply (steady_trans s s1).
    split; [by apply (Hv r s2) | by apply (steady_trans s s1)].
  - by left.
Qed.

Ltac optional_step :=
  first
    [ apply optional_ret
    | apply optional_guarded
    | apply optional_bind; [quietness | intros ?]
    | match goal with
      | |- optional _ _ _ _ (if ?b then _ else _) => destruct b
      | |- optional _ _ _ _ (match ?x with _ => _ end) => destruct x
      end ].

Lemma optional_add_thumbnail (video_path : string) :
  optional video_path (Py.path_join output_dir "with_thumbnail.mp4")
    60 "Miniatura agregada" (add_thumbnail video_path).
Proof. unfold add_thumbnail. repeat optional_step. Qed.

Lemma optional_apply_effects (video_path : string) :
  optional video_path effects_video 85 "Efectos visuales aplicados"
    (apply_effects video_path).
Proof. unfold apply_effects. repeat optional_step. Qed.

Lemma optional_add_fade_out (video_path : string) :
  optional video_path faded_video 95 "Fade-out agregado"
    (add_fade_out video_path).
Proof. unfold add_fade_out. repeat optional_step. Qed.

(** What a stage that may be skipped does to an assertion [X] on the
    record. *)
Lemma hoare_optional {A} (tr0 : list Update) (X : gmap string Json -> Prop)
    (v out : A) (progress : Z) (message : string) (m : M A) :
  optional v out progress message m ->
  10 <= progress <= 95 -> message <> "" ->
  hoare (fun c full => known_since tr0 c full /\ X c) m
    (fun r c full =>
       known_since tr0 c full /\
       ((r = v /\ X c) \/
        (r = out /\ c !! "message" = Some (JStr message))))
    (known_since tr0).
Proof.
  intros Hm Hp Hmsg s [Hk HX]. specialize (Hm s).
  assert (forall s', steady s s' ->
            known_since tr0 (config s') (updates (log s')) /\ X (config s'))
    as Hsteady.
  { intros s' [Hc Hu]. by rewrite Hc, Hu. }
  assert (forall s', advanced progress message s s' ->
            known_since tr0 (config s') (updates (log s')) /\
            config s' !! "message" = Some (JStr message))
    as Hadv.
  { intros s' [Hc Hu]. rewrite Hc, Hu. split.
    - eapply known_since_snoc; [exact Hk | by apply known_processing].
    - by apply message_updated. }
  destruct (m s) as [[r|e|] s'].
  - destruct Hm as [[-> H]|[-> H]].
    + destruct (Hsteady s' H). split; [done|]. by left.
    + destruct (Hadv s' H). split; [done|]. by right.
  - destruct Hm as [H|[_ H]]; [apply (Hsteady s' H) | apply (Hadv s' H)].
  - destruct Hm as [H|H]; [apply (Hsteady s' H) | apply (Hadv s' H)].
Qed.

(** *** The stages that can fail, and the completion *)

Lemma prepare_audio_rec (tr0 : list Update) :
  hoare (known_since tr0) prepare_audio
    (fun d c full =>
       known_since tr0 c full /\
       ((d = ∅ /\ failed c) \/ is_Some (d !! "narration")))
    (known_since tr0).
Proof.
  unfold prepare_audio. kquiet. kquiet. kquiet.
  eapply (hoare_bind _
            (fun r c full =>
               known_since tr0 c full /\
               match r with
               | Some d => is_Some (d !! "narration")
               | None => failed c
               end)).
  - apply (hoare_try _ _ _ (known_since tr0)); [| |auto].
    + kquiet. kprocessing tr0. apply hoare_ret. intros c tr H.
      split; [exact H|]. rewrite lookup_insert_eq. by eexists.
    + intros e. kerror tr0. by apply hoare_ret.
  - intros [d|].
    + apply (hoare_pure _ _ _ _ (is_Some (d !! "narration")));
        [by intros c tr [_ ?]|]. intros Hd.
      eapply hoare_conseq with
        (P' := known_since tr0)
        (Q' := fun d' c full =>
                 known_since tr0 c full /\ is_Some (d' !! "narration"))
        (E' := known_since tr0);
        [| by intros c tr [? _] | intros d' c tr [? ?]; auto | auto].
      kquiet as selected. destruct (Py.truthy_opt selected).
      * kquiet. kquiet as present. destruct present.
        -- apply (hoare_try _ _ _ (known_since tr0)); [| |auto].
           ++ kquiet. kprocessing tr0. apply hoare_ret. intros c tr H.
              split; [exact H|]. by rewrite lookup_insert_ne.
           ++ intros e. kquiet. apply hoare_ret. intros c tr H. by split.
        -- apply hoare_ret. intros c tr H. by split.
      * apply hoare_ret. intros c tr H. by split.
    + apply hoare_ret. intros c tr [H ?]. split; [exact H|]. by left.
Qed.

Lemma create_video_timeline_rec (tr0 : list Update)
    (image_paths : list string) :
  hoare (known_since tr0) (create_video_timeline image_paths)
    (fun r c full =>
       known_since tr0 c full /\ (is_empty_str r = true -> failed c))
    (known_since tr0).
Proof.
  unfold create_video_timeline. kquiet. kquiet. kquiet.
  apply (hoare_try _ _ _ (known_since tr0)); [| |auto].
  - kquiet. kprocessing tr0. apply hoare_ret. intros c tr H.
    split; [exact H|]. by rewrite artifact_nonempty.
  - intros e. kerror tr0. by apply hoare_ret; intros c tr [? ?].
Qed.

Lemma mux_rec (tr0 : list Update) (cmd : list string) :
  hoare (known_since tr0) (mux cmd audio_video)
    (fun r c full =>
       known_since tr0 c full /\
       ((is_empty_str r = true /\ failed c) \/ stands c r))
    (known_since tr0).
Proof.
  unfold mux.
  apply (hoare_try _ _ _ (known_since tr0)); [| |auto].
  - kquiet.
    apply (hoare_seq_update _
             (fun c full =>
                known_since tr0 c full /\
                c !! "message" = Some (JStr "Audio agregado al video"))).
    + intros c tr H. split; [|by apply message_updated].
      eapply known_since_snoc;
        [exact H | apply known_processing; [lia | nonempty_message]].
    + kfail.
    + apply hoare_ret. intros c tr [H Hm]. split; [exact H|].
      right. left. by split.
  - intros e. kerror tr0. apply hoare_ret. intros c tr [H Hf].
    split; [exact H|]. by left.
Qed.

Lemma add_audio_rec (tr0 : list Update) (video_path : string)
    (audio_files : gmap string string) :
  is_Some (audio_files !! "narration") ->
  hoare (known_since tr0) (add_audio video_path audio_files)
    (fun r c full =>
       known_since tr0 c full /\
       ((is_empty_str r = true /\ failed c) \/ stands c r))
    (known_since tr0).
Proof.
  intros Hn. unfold add_audio. kquiet.
  pose proof (audio_inputs_with_narration video_path audio_files Hn) as Hlen.
  destruct (audio_inputs_of video_path audio_files) as [cmd audio_inputs].
  simpl in Hlen. destruct Hlen as [-> | ->]; apply mux_rec.
Qed.

Lemma stands_nonempty (c : gmap string Json) (v : string) :
  stands c v -> is_empty_str v = false.
Proof.
  intros [[-> _]|[[-> _]|[-> _]]]; by apply artifact_nonempty.
Qed.

Lemma basename_artifacts :
  Py.basename audio_video = "with_audio.mp4" /\
  Py.basename effects_video = "with_effects.mp4" /\
  Py.basename faded_video = "final_video.mp4".
Proof.
  unfold audio_video, effects_video, faded_video.
  by rewrite !basename_path_join.
Qed.

Lemma finished_completed (c : gmap string Json) (v stamp : string) :
  stands c v ->
  finished
    (<["completedAt" := JStr stamp]>
       (<["outputFile" := JStr (Py.basename v)]>
          (<["progress" := JInt 100]> (<["status" := JStr "completed"]> c)))).
Proof.
  intros Hv. destruct basename_artifacts as (Ha & He & Hf).
  split; [by simplify_map_eq|]. split; [by simplify_map_eq|].
  split; [by simplify_map_eq|].
  destruct Hv as [[-> Hm]|[[-> Hm]|[-> Hm]]];
    [left; rewrite Ha | right; left; rewrite He | right; right; rewrite Hf];
    by simplify_map_eq.
Qed.

Lemma completion_rec (tr0 : list Update) (final : string) :
  hoare (fun c full => known_since tr0 c full /\ stands c final)
    (completion final)
    (fun b c full => known_since tr0 c full /\ b = true /\ finished c)
    (known_since tr0).
Proof.
  unfold completion.
  apply (hoare_seq_set_item _
           (fun c full =>
              known_since tr0 c full /\
              exists c0, stands c0 final /\
                c = <["status" := JStr "completed"]> c0));
    [intros c tr [H Hv]; split; [exact H | by exists c]|].
  apply (hoare_seq_set_item _
           (fun c full =>
              known_since tr0 c full /\
              exists c0, stands c0 final /\
                c = <["progress" := JInt 100]>
                      (<["status" := JStr "completed"]> c0)));
    [intros c tr [H (c0 & Hv & ->)]; split; [exact H | by exists c0]|].
  apply (hoare_seq_note _
           (fun c full =>
              known_since tr0 c full /\
              exists c0, stands c0 final /\
                c = <["progress" := JInt 100]>
                      (<["status" := JStr "completed"]> c0))).
  { intros c tr [H Hc]. split; [|exact Hc].
    eapply known_since_snoc; [exact H|]. right. right. by repeat split. }
  apply (hoare_seq_set_item _
           (fun c full =>
              known_since tr0 c full /\
              exists c0, stands c0 final /\
                c = <["outputFile" := JStr (Py.basename final)]>
                      (<["progress" := JInt 100]>
                         (<["status" := JStr "completed"]> c0))));
    [intros c tr [H (c0 & Hv & ->)]; split; [exact H | by exists c0]|].
  kquiet as stamp.
  apply (hoare_seq_set_item _
           (fun c full => known_since tr0 c full /\ finished c)).
  { intros c tr [H (c0 & Hv & ->)]. split; [exact H|].
    by apply finished_completed. }
  kquiet. kquiet. kquiet. apply hoare_ret. by intros c tr [? ?].
Qed.

Lemma process_body_rec (tr0 : list Update) :
  hoare (known_since tr0) process_body
    (fun b c full =>
       known_since tr0 c full /\ if b then finished c else failed c)
    (known_since tr0).
Proof.
  unfold process_body. kquiet. kquiet.
  eapply hoare_seq_stage; [apply validate_files_rec | auto |].
  intros valid. destruct valid; simpl;
    [|by apply hoare_ret; intros c tr [? ?]].
  eapply hoare_seq_stage; [apply prepare_images_rec | auto |].
  intros image_paths. destruct image_paths as [|img_path rest]; simpl.
  { apply hoare_ret. intros c tr [H Hf]. split; [exact H | by apply Hf]. }
  eapply hoare_seq_stage;
    [apply prepare_audio_rec | by intros c tr [? _] |].
  intros audio_files.
  destruct (is_empty_dict audio_files) eqn:Hempty.
  { apply hoare_ret. intros c tr [H [[_ Hf]|Hn]]; split; try done.
    apply bool_decide_eq_true_1 in Hempty. subst audio_files.
    rewrite lookup_empty in Hn. by destruct Hn. }
  apply (hoare_pure _ _ _ _ (is_Some (audio_files !! "narration"))).
  { intros c tr [_ [[-> _] | H]]; [|exact H].
    unfold is_empty_dict in Hempty. by rewrite bool_decide_eq_true_2 in Hempty. }
  intros Hnarration.
  eapply hoare_seq_stage;
    [apply create_video_timeline_rec | by intros c tr [? _] |].
  intros video_path. destruct (is_empty_str video_path) eqn:Hvideo.
  { apply hoare_ret. intros c tr [H Hf]. split; [exact H | by apply Hf]. }
  eapply hoare_seq_stage;
    [apply (hoare_optional tr0 (fun _ => True) _ _ _ _ _
              (optional_add_thumbnail video_path)); [lia | done]
    | by intros c tr [? _] |].
  intros video_path1.
  eapply hoare_seq_stage;
    [apply (add_audio_rec tr0 _ _ Hnarration) | by intros c tr [? _] |].
  intros video_path2. destruct (is_empty_str video_path2) eqn:Hvideo2.
  { apply hoare_ret. intros c tr [H [[_ Hf]|Hv]]; split; try done.
    apply stands_nonempty in Hv. congruence. }
  eapply hoare_seq_stage;
    [apply (hoare_optional tr0 (fun c => stands c video_path2) _ _ _ _ _
              (optional_apply_effects video_path2)); [lia | done] | |].
  { intros c tr [H [[He _]|Hv]]; split; try done. congruence. }
  intros video_path3.
  eapply hoare_seq_stage;
    [apply (hoare_optional tr0 (fun c => stands c video_path3) _ _ _ _ _
              (optional_add_fade_out video_path3)); [lia | done] | |].
  { intros c tr [H [[-> Hv]|[-> Hm]]]; split; try done.
    right. left. by split. }
  intros final_video.
  eapply hoare_conseq;
    [apply (completion_rec tr0 final_video) | | | auto].
  - intros c tr [H [[-> Hv]|[-> Hm]]]; split; try done.
    right. right. by split.
  - intros b c tr (H & -> & Hf). by split.
Qed.

Lemma process_rec (tr0 : list Update) :
  hoare (known_since tr0) process
    (fun b c full =>
       known_since tr0 c full /\ if b then finished c else failed c)
    (known_since tr0).
Proof.
  unfold process, process_handler.
  apply (hoare_try _ _ _ (known_since tr0));
    [apply process_body_rec | | auto].
  intros e. kerror tr0. kquiet. by apply hoare_ret; intros c tr [? ?].
Qed.

(** ** What the worker does to its surroundings *)

Ltac permitted_side :=
  first
    [ exact I
    | reflexivity
    | left; reflexivity
    | right; left; reflexivity
    | right; right; left; reflexivity
    | right; right; right; reflexivity
    | intros; exact I ].

Ltac permitted_step := emits_step permitted_side.

Lemma tool_app (cmd rest : list string) :
  tool cmd = true -> tool (cmd ++ rest) = true.
Proof. by destruct cmd. Qed.

Lemma tool_audio_inputs (video_path : string)
    (audio_files : gmap string string) :
  tool (audio_inputs_of video_path audio_files).1 = true.
Proof.
  unfold audio_inputs_of.
  by destruct (audio_files !! "narration"), (audio_files !! "soundtrack").
Qed.

Lemma permitted_update_status (status : string) (progress : Z)
    (message : string) :
  emits_only permitted (update_status status progress message).
Proof. unfold update_status. repeat permitted_step. Qed.

Lemma permitted_validate_images (imgs : list Json) :
  emits_only permitted (validate_images imgs).
Proof.
  induction imgs as [|img rest IH]; simpl; [apply emits_only_ret|].
  repeat first [exact IH | apply permitted_update_status | permitted_step].
Qed.

Lemma permitted_validate_files : emits_only permitted validate_files.
Proof.
  unfold validate_files.
  repeat first [ apply permitted_validate_images
               | apply permitted_update_status | permitted_step ].
Qed.

Lemma permitted_prepare_images_loop (processed_dir : string)
    (items : list Json) :
  forall (i : nat) (image_paths : list string),
  emits_only permitted
    (prepare_images_loop processed_dir i items image_paths).
Proof.
  induction items as [|img_config rest IH]; intros i image_paths; simpl.
  - apply emits_only_ret.
  - apply emits_only_bind; [apply emits_only_lift | intros filename].
    apply emits_only_bind; [apply emits_only_lift | intros operand].
    apply emits_only_bind;
      [|intros [paths|]; [apply IH | apply emits_only_ret]].
    unfold image_progress.
    repeat first [apply permitted_update_status | permitted_step].
Qed.

Lemma permitted_prepare_images : emits_only permitted prepare_images.
Proof.
  unfold prepare_images.
  repeat first
    [apply permitted_prepare_images_loop | permitted_step].
Qed.

Lemma permitted_prepare_audio : emits_only permitted prepare_audio.
Proof.
  unfold prepare_audio, narration_filename.
  repeat first [apply permitted_update_status | permitted_step].
Qed.

Lemma permitted_create_video_timeline (image_paths : list string) :
  emits_only permitted (create_video_timeline image_paths).
Proof.
  unfold create_video_timeline.
  repeat first [apply permitted_update_status | permitted_step].
Qed.

Lemma permitted_add_thumbnail (video_path : string) :
  emits_only permitted (add_thumbnail video_path).
Proof.
  unfold add_thumbnail.
  repeat first [apply permitted_update_status | permitted_step].
Qed.

Lemma permitted_mux (cmd : list string) (output_path : string) :
  tool cmd = true -> emits_only permitted (mux cmd output_path).
Proof.
  intros Hcmd. unfold mux.
  repeat first
    [ apply permitted_update_status
    | apply emits_only_subprocess_run; by apply tool_app
    | permitted_step ].
Qed.

Lemma permitted_add_audio (video_path : string)
    (audio_files : gmap string string) :
  emits_only permitted (add_audio video_path audio_files).
Proof.
  unfold add_audio.
  apply emits_only_bind; [by apply emits_only_print | intros _].
  pose proof (tool_audio_inputs video_path audio_files) as Hcmd.
  destruct (audio_inputs_of video_path audio_files) as [cmd audio_inputs].
  simpl in Hcmd.
  destruct (length audio_inputs) as [|[|[|n]]];
    try (apply permitted_mux; by apply tool_app);
    repeat first [apply permitted_update_status | permitted_step].
Qed.

Lemma permitted_apply_effects (video_path : string) :
  emits_only permitted (apply_effects video_path).
Proof.
  unfold apply_effects.
  repeat first [apply permitted_update_status | permitted_step].
Qed.

Lemma permitted_add_fade_out (video_path : string) :
  emits_only permitted (add_fade_out video_path).
Proof.
  unfold add_fade_out.
  repeat first [apply permitted_update_status | permitted_step].
Qed.

Lemma permitted_process : emits_only permitted process.
Proof.
  unfold process, process_body, process_handler.
  repeat first
    [ apply permitted_update_status | apply permitted_validate_files
    | apply permitted_prepare_images | apply permitted_prepare_audio
    | apply permitted_create_video_timeline | apply permitted_add_thumbnail
    | apply permitted_add_audio | apply permitted_apply_effects
    | apply permitted_add_fade_out | permitted_step ].
Qed.

Lemma permitted_main : emits_only permitted main.
Proof.
  unfold main. repeat first [apply permitted_process | permitted_step].
Qed.

(** ** Edges of the stages *)

Lemma tracks_of_prepare_audio :
  hoare (fun _ _ => True) prepare_audio
    (fun d _ _ =>
       d = ∅ \/ d = {["narration" := narration_track]} \/
       d = <["soundtrack" := soundtrack_track]>
             {["narration" := narration_track]})
    (fun _ _ => True).
Proof.
  unfold prepare_audio. kquiet. kquiet. kquiet.
  eapply (hoare_bind _
            (fun r _ _ =>
               match r with
               | Some d => d = {["narration" := narration_track]}
               | None => True
               end)).
  - apply (hoare_try _ _ _ (fun _ _ => True)); [| |auto].
    + kquiet.
      apply (hoare_seq_update _ (fun _ _ => True)); [done | done |].
      by apply hoare_ret.
    + intros e.
      apply (hoare_seq_update _ (fun _ _ => True)); [done | done |].
      by apply hoare_ret.
  - intros [d|]; [|apply hoare_ret; by left].
    apply (hoare_pure _ _ _ _ (d = {["narration" := narration_track]}));
      [by intros c tr ?|]. intros ->.
    eapply hoare_conseq with (P' := fun _ _ => True) (E' := fun _ _ => True);
      [| done | intros d' c tr H; exact H | done].
    kquiet as selected. destruct (Py.truthy_opt selected).
    + kquiet. kquiet as present. destruct present.
      * apply (hoare_try _ _ _ (fun _ _ => True)); [| |auto].
        -- kquiet.
           apply (hoare_seq_update _ (fun _ _ => True)); [done | done |].
           apply hoare_ret. intros c tr _. by right; right.
        -- intros e. kquiet. apply hoare_ret. intros c tr _. by right; left.
      * apply hoare_ret. intros c tr _. by right; left.
    + apply hoare_ret. intros c tr _. by right; left.
Qed.

Lemma length_append (s t : string) :
  String.length (s +:+ t) = (String.length s + String.length t)%nat.
Proof. induction s as [|c s IH]; simpl; [done | by rewrite IH]. Qed.

Lemma append_cancel_r (t : string) :
  forall s s', s +:+ t = s' +:+ t -> s = s'.
Proof.
  assert (forall s c r, s <> String c (r +:+ s)) as Hlen.
  { intros s c r H. apply (f_equal String.length) in H.
    simpl in H. rewrite length_append in H. lia. }
  induction s as [|c s IH]; intros [|c' s'] H; simpl in H.
  - done.
  - by destruct (Hlen t c' s').
  - symmetry in H. by destruct (Hlen t c s).
  - injection H as -> H. by rewrite (IH s' H).
Qed.

Lemma pretty_N_go_leading (x : N) :
  forall s t, (0 < x)%N -> pretty_N_go x s <> String "0" t.
Proof.
  induction (N.lt_wf_0 x) as [x _ IH]; intros s t Hx.
  rewrite pretty_N_go_step by done.
  destruct (N.eq_0_gt_0_cases (x `div` 10)) as [Hd|Hd].
  - rewrite Hd, pretty_N_go_0.
    assert (x < 10)%N as Hlt by (by apply N.div_small_iff in Hd).
    rewrite N.mod_small by done.
    assert (x = 1 \/ x = 2 \/ x = 3 \/ x = 4 \/ x = 5 \/ x = 6 \/ x = 7 \/
            x = 8 \/ x = 9)%N as Hcases by lia.
    intros H. injection H as H _.
    repeat (destruct Hcases as [->|Hcases]; [discriminate H|]).
    subst x. discriminate H.
  - apply IH; [|done]. apply N.div_lt; lia.
Qed.

Lemma pretty_nat_leading (i : nat) (t : string) :
  (0 < i)%nat -> pretty i <> String "0" t.
Proof.
  intros Hi. unfold pretty, pretty_nat, pretty, pretty_N.
  destruct (decide (N.of_nat i = 0%N)) as [H|H]; [lia|].
  apply pretty_N_go_leading. lia.
Qed.

Lemma no_slash_append (a b : string) :
  no_slash a = true -> no_slash b = true -> no_slash (a +:+ b) = true.
Proof.
  intros Ha Hb. induction a as [|c a IH]; [done|].
  rewrite append_cons. simpl in *. apply andb_prop in Ha as [Hc Ha].
  by rewrite Hc, IH.
Qed.

Lemma no_slash_pretty_N_go (x : N) :
  forall s, no_slash s = true -> no_slash (pretty_N_go x s) = true.
Proof.
  induction (N.lt_wf_0 x) as [x _ IH]; intros s Hs.
  destruct (N.eq_0_gt_0_cases x) as [->|Hx]; [by rewrite pretty_N_go_0|].
  rewrite pretty_N_go_step by done.
  apply IH; [apply N.div_lt; lia|]. simpl. rewrite Hs.
  unfold pretty_N_char. by repeat case_match.
Qed.

Lemma no_slash_pad2 (i : nat) : no_slash (Py.pad2 i) = true.
Proof.
  assert (no_slash (pretty i) = true) as Hi.
  { unfold pretty, pretty_nat, pretty, pretty_N.
    destruct (decide (N.of_nat i = 0%N)); [done|].
    by apply no_slash_pretty_N_go. }
  unfold Py.pad2. destruct (i <? 10)%nat; [|done].
  by apply no_slash_append.
Qed.

Lemma plain_image_name (i : nat) :
  plain_name ("img_" +:+ Py.pad2 i +:+ ".jpg").
Proof.
  split; [|reflexivity].
  apply (no_slash_append "img_"); [done|].
  apply no_slash_append; [apply no_slash_pad2 | done].
Qed.

Lemma pad2_inj (i j : nat) : Py.pad2 i = Py.pad2 j -> i = j.
Proof.
  unfold Py.pad2.
  destruct (Nat.ltb_spec i 10) as [Hi|Hi], (Nat.ltb_spec j 10) as [Hj|Hj];
    simpl; intros H.
  - injection H as H. by apply (inj pretty).
  - symmetry in H. apply pretty_nat_leading in H; [done | lia].
  - apply pretty_nat_leading in H; [done | lia].
  - by apply (inj pretty).
Qed.

(** ** Further properties of the worker *)

(** X1. The value [process] returns agrees with the record it leaves:
    after [True] the record has status [completed], progress 100, a
    [completedAt] stamp, and as [outputFile] the bare name of the last
    artifact made, [message] still being the message of the stage that
    made it; after [False] it has status [error] and progress 0. *)
Theorem process_result_in_record (s : State) :
  match process s with
  | (Ret true, s') => finished (config s')
  | (Ret false, s') => failed (config s')
  | _ => True
  end.
Proof.
  pose proof (process_rec (updates (log s)) s (known_since_start s)) as H.
  destruct (process s) as [[[|]|e|] s']; try done; by destruct H.
Qed.

(** X2. Every status update made in a run of [process], however the
    run ends, is [processing] with a progress from 10 to 95 and a
    message, [error] with progress 0 and a message, or the completion
    with progress 100. *)
Theorem process_updates_known (s : State) :
  exists tr,
    updates (log (process s).2) = updates (log s) ++ tr /\ Forall known tr.
Proof.
  pose proof (process_rec (updates (log s)) s (known_since_start s)) as H.
  destruct (process s) as [[b|e|] s']; simpl; [by destruct H | done..].
Qed.

(** X3. However a run of [process] ends, the record in memory differs
    from the one it started with at most at [status], [progress],
    [message], [outputFile] and [completedAt]. *)
Theorem process_assigns_five_keys (s : State) (k : string) :
  k <> "status" -> k <> "progress" -> k <> "message" ->
  k <> "outputFile" -> k <> "completedAt" ->
  config (process s).2 !! k = config s !! k.
Proof.
  intros H1 H2 H3 H4 H5. apply touches_process.
  by intros [?|[?|[?|[?|?]]]].
Qed.

(** X4. If [config.json] holds the record in memory when [process]
    starts, it holds the record in memory when [process] returns. *)
Theorem process_returns_with_file_in_step (s : State) :
  disk s = Holds (config s) ->
  match process s with
  | (Ret _, s') => disk s' = Holds (config s')
  | _ => True
  end.
Proof.
  intros Hs. destruct (process s) as [[b|e|] s'] eqn:Hrun; [|done..].
  by apply (process_synced s s' b).
Qed.



(** X6. In a run of [main] or of [process], however it ends, every
    program started is [ffmpeg], [ffprobe] or [date], and every file
    opened for writing or written and every directory made is
    [config.json] or, in the output directory, [processed_images],
    [images_list.txt] or [concat_list.txt]. *)
Theorem worker_events_permitted (s : State) :
  (exists evs, log (main s).2 = log s ++ evs /\ Forall permitted evs) /\
  (exists evs, log (process s).2 = log s ++ evs /\ Forall permitted evs).
Proof. split; [apply permitted_main | apply permitted_process]. Qed.

(** X7. [add_thumbnail] either gives back the video it was given and
    leaves record and status history as they were, or gives
    [with_thumbnail.mp4] after the one update [processing], 60,
    [Miniatura agregada]; it never records an error. *)
Theorem add_thumbnail_optional (video_path : string) :
  optional video_path (Py.path_join output_dir "with_thumbnail.mp4")
    60 "Miniatura agregada" (add_thumbnail video_path).
Proof. exact (optional_add_thumbnail video_path). Qed.

(** X8. [apply_effects] either gives back the video it was given and
    leaves record and status history as they were, or gives
    [with_effects.mp4] after the one update [processing], 85,
    [Efectos visuales aplicados]; it never records an error. *)
Theorem apply_effects_optional (video_path : string) :
  optional video_path effects_video 85 "Efectos visuales aplicados"
    (apply_effects video_path).
Proof. exact (optional_apply_effects video_path). Qed.

(** X9. [add_fade_out] either gives back the video it was given and
    leaves record and status history as they were, or gives
    [final_video.mp4] after the one update [processing], 95,
    [Fade-out agregado]; it never records an error. *)
Theorem add_fade_out_optional (video_path : string) :
  optional video_path faded_video 95 "Fade-out agregado"
    (add_fade_out video_path).
Proof. exact (optional_add_fade_out video_path). Qed.

(** X10. What [prepare_audio] returns is empty, or maps [narration] to
    [narration.wav] in the output directory, alone or together with
    [soundtrack] mapped to [soundtrack.wav] there. *)
Theorem prepare_audio_tracks (s : State) :
  match (prepare_audio s).1 with
  | Ret d =>
      d = ∅ \/ d = {["narration" := narration_track]} \/
      d = <["soundtrack" := soundtrack_track]>
            {["narration" := narration_track]}
  | _ => True
  end.
Proof.
  pose proof (tracks_of_prepare_audio s I) as H.
  by destruct (prepare_audio s) as [[d|e|] s'].
Qed.

(** X11. Given no image, [create_video_timeline] does not return: once
    the list file is open it raises [IndexError], having run no
    command, made no status update and left the record alone. *)
Theorem create_video_timeline_empty_list (s : State) :
  let run := create_video_timeline [] s in
  (run.1 = Killed \/ (exists text, run.1 = Raise (mkExn OSError text)) \/
   run.1 = Raise (mkExn IndexError "list index out of range")) /\
  execs (log run.2) = execs (log s) /\
  updates (log run.2) = updates (log s) /\
  config run.2 = config s.
Proof.
  intros run. subst run.
  unfold create_video_timeline, bind, print, open_w, raise, effect. simpl.
  destruct (w_kill w (log s)); simpl; [split; [by left | done]|].
  destruct (w_kill w (log s ++ _)); simpl;
    [rewrite execs_app, updates_app, !app_nil_r; split; [by left | done]|].
  destruct (w_open w (log s ++ _) _); simpl;
    rewrite ?execs_app, ?updates_app; simpl; rewrite ?app_nil_r;
    (split; [|done]).
  - right. left. by eexists.
  - by right; right.
Qed.

(** X12. Given neither a narration nor a soundtrack, [add_audio] runs
    no command, records the error [No audio tracks available] and, if
    it returns, returns the empty string. *)
Theorem add_audio_needs_a_track (video_path : string)
    (audio_files : gmap string string) (s : State) :
  audio_files !! "narration" = None -> audio_files !! "soundtrack" = None ->
  let run := add_audio video_path audio_files s in
  execs (log run.2) = execs (log s) /\
  (forall r, run.1 = Ret r -> r = "") /\
  (w_kill w (log s) = false ->
   updates (log run.2) =
     updates (log s) ++ [mkUpdate "error" 0 "No audio tracks available"] /\
   failed (config run.2)).
Proof.
  intros Hn Hs run. subst run. unfold add_audio, audio_inputs_of.
  rewrite Hn, Hs. cbn [length app].
  set (m := print "🔊 Adding audio tracks..." ;;
            update_status "error" 0 "No audio tracks available" ;; ret "").
  split; [|split].
  - assert (emits_only not_exec m) as Hm
      by (unfold m; repeat emits_step side_by_computation).
    destruct (Hm s) as (evs & -> & Hevs).
    by rewrite execs_app, (execs_not_exec evs Hevs), app_nil_r.
  - intros r Hr. destruct (m s) as [[r'|e|] s'] eqn:Hrun; simpl in Hr;
      try discriminate Hr. injection Hr as ->. unfold m in Hrun.
    apply bind_ret_inv in Hrun as (? & s1 & _ & Hrun).
    apply bind_ret_inv in Hrun as (? & s2 & _ & Hrun).
    by injection Hrun as <- _.
  - intros Hkill. unfold m. rewrite (run_print _ _ _ Hkill).
    set (s1 := emit _ s). rewrite bind_run.
    destruct (update_status_view "error" 0 "No audio tracks available" s1)
      as [Hc Hu].
    destruct (update_status "error" 0 "No audio tracks available" s1)
      as [[[]|e|] s2]; simpl in *; rewrite Hc, Hu; unfold s1, emit; simpl;
      rewrite updates_app, app_nil_r; (split; [done | apply failed_updated]).
Qed.

(** X13. The image stage writes the converted images to pairwise
    distinct files, however many there are: no image overwrites
    another. *)
Theorem image_outputs_distinct (processed_dir : string) (n : nat) :
  NoDup (image_outputs processed_dir n).
Proof.
  unfold image_outputs.
  change (NoDup (image_output processed_dir <$> seq 0 n)).
  apply NoDup_fmap_2; [|apply NoDup_seq].
  intros i j H. unfold image_output in H.
  apply path_join_inj in H; [|apply plain_image_name..].
  apply (inj (String.app "img_")) in H.
  apply append_cancel_r in H. by apply pad2_inj.
Qed.

(** X14. When the conversion of an image fails, the image stage ends
    there: that command is the last one it runs, it records an error
    that names the image by its position and carries the text of the
    failure, and what it returns is the empty list, whatever had been
    converted before. *)
Theorem prepare_images_stops_at_failure (processed_dir : string) (i : nat)
    (img_config : Json) (rest : list Json) (image_paths : list string)
    (s : State) (name : string) (rc : Z) (out : string) :
  let cmd :=
    image_cmd (Py.path_join images_dir name) (image_output processed_dir i) in
  let run :=
    prepare_images_loop processed_dir i (img_config :: rest) image_paths s in
  Py.subscript img_config "filename" = Ret (JStr name) ->
  w_kill w (log s) = false ->
  w_run w (log s) cmd = NonZero rc out ->
  execs (log run.2) = execs (log s) ++ [cmd] /\
  updates (log run.2) =
    updates (log s) ++
    [mkUpdate "error" 0
       ("Error procesando imagen " +:+ pretty (i + 1)%nat +:+ ": "
        +:+ py_str_cpe w cmd rc)] /\
  failed (config run.2) /\
  (forall r, run.1 = Ret r -> r = []) /\
  (dependable -> run.1 = Ret []).
Proof.
  intros cmd run Hname Hkill Hrun. subst run. simpl.
  rewrite Hname, run_lift. cbn [Py.path_operand]. rewrite run_lift.
  rewrite bind_run. unfold try_except.
  rewrite (bind_run (subprocess_run _ true)).
  fold cmd. unfold subprocess_run, effect. rewrite Hkill, Hrun.
  cbn [exn_class only_called_process_error exn_str].
  set (message := "Error procesando imagen " +:+ pretty (i + 1)%nat +:+ ": "
                  +:+ py_str_cpe w cmd rc).
  set (s1 := emit (EvExec cmd) s). rewrite bind_run.
  destruct (update_status_view "error" 0 message s1) as [Hc Hu].
  destruct (update_status_run "error" 0 message s1)
    as (evs & Hlog & Hh & Hdep).
  assert (execs (log (update_status "error" 0 message s1).2) =
            execs (log s) ++ [cmd]) as Hexecs.
  { rewrite Hlog.
    change (EvStatus "error" 0 message :: evs)
      with ([EvStatus "error" 0 message] ++ evs).
    rewrite !execs_app, (execs_not_exec evs (harmless_not_exec evs Hh)).
    unfold s1, emit. simpl. rewrite execs_app. simpl.
    by rewrite !app_nil_r. }
  assert (updates (log (update_status "error" 0 message s1).2) =
            updates (log s) ++ [mkUpdate "error" 0 message]) as Hupdates.
  { rewrite Hu. unfold s1, emit. simpl. rewrite updates_app. simpl.
    by rewrite app_nil_r. }
  assert (failed (config (update_status "error" 0 message s1).2)) as Hfailed.
  { rewrite Hc. apply failed_updated. }
  destruct (update_status "error" 0 message s1) as [[[]|e|] s2];
    simpl in *;
    (split; [exact Hexecs|]); (split; [exact Hupdates|]);
    (split; [exact Hfailed|]); split;
    try (by intros r [= <-]); try done;
    intros Hd; by specialize (Hdep Hd).
Qed.

End Worker.

(** ** The theorems at sample projects *)

Import Demo.


(** A full run in the calm world: every stage reports in turn. *)
Example calm_run :
  (main calm "/proj" (boot (Holds (record 30)))).1 = Ret 0 /\
  map u_progress
    (updates (log (main calm "/proj" (boot (Holds (record 30)))).2)) =
    [10; 10; 11; 12; 12; 13; 14; 14; 15; 16; 16; 17; 18; 18; 19; 20; 20; 21;
     22; 22; 23; 24; 24; 25; 26; 26; 27; 28; 28; 29; 30; 35; 50; 75; 95; 100].
Proof. split; vm_compute; reflexivity. Qed.

Example pad2_examples :
  Py.pad2 0 = "00" /\ Py.pad2 7 = "07" /\ Py.pad2 29 = "29" /\
  Py.pad2 123 = "123".
Proof. repeat split. Qed.



(** Counterexample to C3 as stated: an empty message does not
    overwrite the stored one. *)
Lemma update_status_empty_message_counterexample :
  ~ (forall (w : World) (project_dir status : string) (progress : Z)
       (message : string) (s : State),
       config (update_status w project_dir status progress message s).2
         !! "message" = Some (JStr message)).
Proof.
  intros H.
  specialize (H calm "/proj" "processing" 5 "" (loaded (record 30))).
  vm_compute in H. discriminate H.
Qed.

(** Witness of C10: the images survive an update. *)
Lemma update_status_frame_witness :
  let run :=
    update_status calm "/proj" "processing" 10 "Archivos validados correctamente"
      (loaded (record 30)) in
  "images" <> "status" /\ "images" <> "progress" /\ "images" <> "message" /\
  config run.2 !! "images" = record 30 !! "images" /\
  run.1 = Ret tt.
Proof.
  intros run.
  assert ("images" <> "status") as H1 by discriminate.
  assert ("images" <> "progress") as H2 by discriminate.
  assert ("images" <> "message") as H3 by discriminate.
  destruct (update_status_frame calm "/proj" "processing" 10
              "Archivos validados correctamente" (loaded (record 30))
              "images" H1 H2 H3) as (Hk & _ & Hdep).
  split; [exact H1|]. split; [exact H2|]. split; [exact H3|].
  split; [exact Hk|].
  apply Hdep. repeat split; intros; reflexivity.
Defined.

(** Counterexample to C4 as stated: killed between the opening of the
    file and the dump, the process leaves [config.json] without the
    record it held. *)
Lemma update_status_crash_counterexample :
  let s := loaded (record 30) in
  let run :=
    update_status killed_after_open "/proj" "processing" 10
      "Archivos validados correctamente" s in
  disk s = Holds (record 30) /\
  run.1 = Killed /\
  config run.2 !! "progress" = Some (JInt 10) /\
  log run.2 =
    [EvStatus "processing" 10 "Archivos validados correctamente";
     EvOpen "/proj/config.json"] /\
  disk run.2 = Torn /\
  disk run.2 <> Holds (record 30).
Proof. repeat split; first [discriminate | vm_compute; reflexivity]. Qed.

(** Witness of C4 as amended. *)
Lemma update_status_crash_witness :
  let s := loaded (record 30) in
  let run :=
    update_status killed_after_open "/proj" "processing" 10
      "Archivos validados correctamente" s in
  run.1 = Killed /\
  (disk run.2 = disk s \/ disk run.2 = Torn \/
   disk run.2 = Holds (config run.2)).
Proof.
  intros s run.
  assert (run.1 = Killed) as Hr by (vm_compute; reflexivity).
  split; [exact Hr|].
  destruct (update_status_crash killed_after_open "/proj" "processing" 10
              "Archivos validados correctamente" s Hr)
    as [[_ H]|[[_ H]|[_ H]]]; auto.
Defined.

(** Counterexample to C7 as stated: when [config.json] cannot be
    loaded, [main] ends with the exception and no status update is
    made. *)
Lemma config_load_failure_counterexample :
  let run := main calm "/proj" (boot Missing) in
  run.1 =
    Raise (mkExn OSError
             "[Errno 2] No such file or directory: '/proj/config.json'") /\
  updates (log run.2) = [] /\
  disk run.2 = Missing.
Proof. repeat split; vm_compute; reflexivity. Qed.

(** Witness of C7 as amended: a record without [id], and a
    [config.json] that holds the empty list. *)
Lemma exception_in_process_recorded_witness :
  let s := boot (Holds record_without_id) in
  let run := main calm "/proj" s in
  let s0 := boot (Other (FArr [])) in
  process_body calm "/proj" (set_config record_without_id s) =
    (Raise (mkExn KeyError "'id'"), set_config record_without_id s) /\
  run.1 = Ret 1 /\
  config run.2 !! "status" = Some (JStr "error") /\
  config run.2 !! "message" = Some (JStr "Error inesperado: 'id'") /\
  main calm "/proj" s0 =
    (Raise (mkExn TypeError
              "list indices must be integers or slices, not str"), s0).
Proof.
  intros s run s0.
  assert (process_body calm "/proj" (set_config record_without_id s) =
            (Raise (mkExn KeyError "'id'"), set_config record_without_id s))
    as Hbody by (vm_compute; reflexivity).
  split; [exact Hbody|].
  destruct (exception_in_process_recorded calm "/proj" s eq_refl eq_refl)
    as [Hrecorded _].
  destruct (Hrecorded record_without_id (set_config record_without_id s)
              (mkExn KeyError "'id'") eq_refl Hbody)
    as (_ & Hstatus & _ & Hmessage & _ & Hdep).
  split; [apply Hdep; repeat split; intros; reflexivity|].
  split; [exact Hstatus|]. split; [exact Hmessage|].
  destruct (exception_in_process_recorded calm "/proj" s0 eq_refl eq_refl)
    as [_ Hstranded].
  destruct (Hstranded eq_refl) as (e & He & Hmain).
  injection He as <-. exact Hmain.
Defined.

(** C5, at the failing input: [ffprobe] exits with status 0 and prints
    [N/A].  [add_fade_out] does not return the previous video: the
    [ValueError] of [float] leaves it, and the run ends in [error].  So
    it is when [ffprobe] cannot be started. *)
Theorem add_fade_out_unknown_duration_aborts :
  let video_path := "/proj/output/with_audio.mp4" in
  let run := main unknown_duration "/proj" (boot (Holds (record 30))) in
  let run' := main ffprobe_missing "/proj" (boot (Holds (record 30))) in
  (add_fade_out unknown_duration "/proj" video_path (loaded (record 30))).1 =
    Raise (mkExn ValueError "could not convert string to float: 'N/A'") /\
  run.1 = Ret 1 /\
  last (updates (log run.2)) =
    Some (mkUpdate "error" 0
            "Error inesperado: could not convert string to float: 'N/A'") /\
  config run.2 !! "status" = Some (JStr "error") /\
  (add_fade_out ffprobe_missing "/proj" video_path (loaded (record 30))).1 =
    Raise (mkExn OSError "[Errno 2] No such file or directory: 'ffprobe'") /\
  run'.1 = Ret 1 /\
  config run'.2 !! "status" = Some (JStr "error").
Proof. repeat split; vm_compute; reflexivity. Qed.

(** C6, at the failing input: a soundtrack is selected and its file is
    absent.  The soundtrack is dropped and the run completes, but no
    warning is printed; the sibling stage does warn about an absent
    filter file, and a failed conversion of the soundtrack is warned
    about. *)
Theorem prepare_audio_missing_soundtrack_silent :
  let s := loaded record_with_extras in
  let run := prepare_audio empty_libraries "/proj" s in
  (exists audio_files,
     run.1 = Ret audio_files /\
     audio_files !! "narration" = Some "/proj/output/narration.wav" /\
     audio_files !! "soundtrack" = None) /\
  prints (log run.2) =
    ["🎵 Preparing audio...";
     "Status: processing (35%) - Audio de narración procesado"] /\
  prints (log (apply_effects empty_libraries "/proj" "v.mp4" s).2) =
    ["✨ Applying visual effects...";
     "Warning: Filter file not found: public/filters/rain.mp4"] /\
  prints (log (prepare_audio soundtrack_fails "/proj" s).2) =
    ["🎵 Preparing audio...";
     "Status: processing (35%) - Audio de narración procesado";
     "Warning: Error processing soundtrack: Command returned non-zero exit status 1."] /\
  (main empty_libraries "/proj" (boot (Holds record_with_extras))).1 = Ret 0.
Proof.
  intros s run. split.
  - destruct run.1 as [audio_files| |] eqn:Hrun.
    + exists audio_files. split; [done|].
      assert (match run.1 with
              | Ret d => d !! "narration" = Some "/proj/output/narration.wav"
                         /\ d !! "soundtrack" = None
              | _ => False
              end) as H by (vm_compute; by split).
      by rewrite Hrun in H.
    + assert (match run.1 with Ret _ => True | _ => False end) as H
        by (vm_compute; exact I).
      by rewrite Hrun in H.
    + assert (match run.1 with Ret _ => True | _ => False end) as H
        by (vm_compute; exact I).
      by rewrite Hrun in H.
  - repeat split; vm_compute; reflexivity.
Qed.

(** The narration is indispensable: when its conversion fails the run
    records [error] and stops before the timeline is assembled. *)
Example narration_failure_is_fatal :
  let run := main narration_fails "/proj" (boot (Holds record_with_extras)) in
  run.1 = Ret 1 /\
  last (updates (log run.2)) =
    Some (mkUpdate "error" 0
            "Error procesando audio: Command returned non-zero exit status 1.") /\
  length (execs (log run.2)) = 31%nat.
Proof. repeat split; vm_compute; reflexivity. Qed.

(** ** The further properties at sample projects *)

Lemma process_assigns_five_keys_witness :
  "images" <> "status" /\ "images" <> "progress" /\ "images" <> "message" /\
  "images" <> "outputFile" /\ "images" <> "completedAt" /\
  config (process calm "/proj" (loaded (record 30))).2 !! "images" =
    record 30 !! "images".
Proof.
  assert ("images" <> "status") as H1 by discriminate.
  assert ("images" <> "progress") as H2 by discriminate.
  assert ("images" <> "message") as H3 by discriminate.
  assert ("images" <> "outputFile") as H4 by discriminate.
  assert ("images" <> "completedAt") as H5 by discriminate.
  split; [exact H1|]. split; [exact H2|]. split; [exact H3|].
  split; [exact H4|]. split; [exact H5|].
  exact (process_assigns_five_keys calm "/proj" (loaded (record 30))
           "images" H1 H2 H3 H4 H5).
Defined.

Lemma process_returns_with_file_in_step_witness :
  let s := loaded (record 30) in
  let run := process calm "/proj" s in
  disk s = Holds (config s) /\ run.1 = Ret true /\
  disk run.2 = Holds (config run.2).
Proof.
  intros s run.
  assert (disk s = Holds (config s)) as Hs by reflexivity.
  assert (run = (Ret true, run.2)) as Hrun by (vm_compute; reflexivity).
  split; [exact Hs|]. split; [by rewrite Hrun|].
  pose proof (process_returns_with_file_in_step calm "/proj" s Hs) as H.
  fold run in H. rewrite Hrun in H. exact H.
Defined.

Lemma add_audio_needs_a_track_witness :
  let s := loaded (record 30) in
  let run := add_audio calm "/proj" "/proj/output/images_video.mp4" ∅ s in
  execs (log run.2) = [] /\
  updates (log run.2) = [mkUpdate "error" 0 "No audio tracks available"] /\
  config run.2 !! "status" = Some (JStr "error").
Proof.
  intros s run.
  assert ((∅ : gmap string string) !! "narration" = None) as Hn
    by reflexivity.
  assert ((∅ : gmap string string) !! "soundtrack" = None) as Hs
    by reflexivity.
  destruct (add_audio_needs_a_track calm "/proj"
              "/proj/output/images_video.mp4" ∅ s Hn Hs)
    as (Hexecs & _ & Hupd).
  destruct (Hupd eq_refl) as (Hupdates & Hstatus & _).
  split; [exact Hexecs|]. by split.
Defined.

Lemma prepare_images_stops_at_failure_witness :
  let s := loaded (record 30) in
  let processed_dir := "/proj/output/processed_images" in
  let cmd :=
    image_cmd "/proj/images/photo2.png"
      "/proj/output/processed_images/img_02.jpg" in
  let run :=
    prepare_images_loop third_image_fails "/proj" processed_dir 2
      [image 2; image 3]
      ["/proj/output/processed_images/img_00.jpg";
       "/proj/output/processed_images/img_01.jpg"] s in
  Py.subscript (image 2) "filename" = Ret (JStr "photo2.png") /\
  w_kill third_image_fails (log s) = false /\
  w_run third_image_fails (log s) cmd = NonZero 1 "" /\
  execs (log run.2) = [cmd] /\ run.1 = Ret [].
Proof.
  intros s processed_dir cmd run.
  assert (Py.subscript (image 2) "filename" = Ret (JStr "photo2.png"))
    as Hname by (vm_compute; reflexivity).
  assert (w_kill third_image_fails (log s) = false) as Hkill by reflexivity.
  assert (w_run third_image_fails (log s) cmd = NonZero 1 "") as Hrun
    by (vm_compute; reflexivity).
  split; [exact Hname|]. split; [exact Hkill|]. split; [exact Hrun|].
  destruct (prepare_images_stops_at_failure third_image_fails "/proj"
              processed_dir 2 (image 2) [image 3]
              ["/proj/output/processed_images/img_00.jpg";
               "/proj/output/processed_images/img_01.jpg"]
              s "photo2.png" 1 "" Hname Hkill Hrun)
    as (Hexecs & _ & _ & _ & Hdep).
  split; [exact Hexecs|].
  apply Hdep. repeat split; intros; reflexivity.
Defined.
